(** * Locale-aware route resolution: [runtime/routing/compatibles/routing.ts]

    A shallow embedding of the routing helpers ([prefixable],
    [getRouteBaseName], [resolveRoute], [localePath], [switchLocalePath], ...)
    together with the properties stated about them.

    Conventions of the embedding:
    - JavaScript strings are [string]s; one [ascii] stands for one code unit
      (code units above 255 are not represented).
    - A JavaScript object used as a dictionary is a [gmap] with string keys.
    - A function that may throw returns a [Completion]; thrown values are
      described by what the [catch] clause of [resolveRoute] inspects.
    - Collaborators that the file imports but does not define are the fields
      of the class [Externals]. *)

From Stdlib Require Import String Ascii ZArith Bool Lia.
From stdpp Require Import base option strings gmap.

Open Scope string_scope.

(** ** JavaScript string primitives *)

Module JsString.

(** [s.indexOf(pat)]: position of the first occurrence, [None] for [-1]. *)
Fixpoint indexOf (pat s : string) : option nat :=
  if String.prefix pat s then Some 0
  else match s with
       | EmptyString => None
       | String _ s' => S <$> indexOf pat s'
       end.

(** [s.includes(pat)]. *)
Definition includes (pat s : string) : bool :=
  match indexOf pat s with Some _ => true | None => false end.

(** [s.slice(0, i)] and [s.slice(i)] for [0 <= i]. *)
Definition slice_to (i : nat) (s : string) : string := substring 0 i s.
Definition slice_from (i : nat) (s : string) : string :=
  substring i (String.length s - i) s.

(** [s.endsWith(c)] for a one-character [c]. *)
Fixpoint endsWith (c : ascii) (s : string) : bool :=
  match s with
  | EmptyString => false
  | String a EmptyString => Ascii.eqb a c
  | String _ s' => endsWith c s'
  end.

(** [s.slice(0, -1)]: all but the last code unit. *)
Fixpoint dropLast (s : string) : string :=
  match s with
  | EmptyString => EmptyString
  | String _ EmptyString => EmptyString
  | String a s' => String a (dropLast s')
  end.

(** [s.split(sep)[0]].  With a non-empty separator this is the text before
    its first occurrence (the whole string if there is none).  With the
    empty separator [split] yields the code units one by one, so element 0
    is the first code unit, or [undefined] when [s] is empty. *)
Definition split_head (sep s : string) : option string :=
  match sep with
  | EmptyString =>
      match s with
      | EmptyString => None
      | String a _ => Some (String a EmptyString)
      end
  | _ =>
      match indexOf sep s with
      | Some i => Some (slice_to i s)
      | None => Some s
      end
  end.

(** [s.split(c)] for a one-character separator [c]. *)
Fixpoint split_char (c : ascii) (s : string) : list string :=
  match s with
  | EmptyString => [EmptyString]
  | String a s' =>
      if Ascii.eqb a c then EmptyString :: split_char c s'
      else match split_char c s' with
           | [] => [String a EmptyString]
           | h :: t => String a h :: t
           end
  end.

(** [l.join(sep)]. *)
Fixpoint join (sep : string) (l : list string) : string :=
  match l with
  | [] => EmptyString
  | [x] => x
  | x :: l' => x +:+ sep +:+ join sep l'
  end.

(** [s || d] on strings: the empty string is falsy. *)
Definition or_else (s d : string) : string :=
  if String.eqb s "" then d else s.

(** The longest prefix of [s] whose code units all satisfy [p], and the
    rest: what a greedy character class [[...]*] consumes. *)
Fixpoint span (p : ascii -> bool) (s : string) : string * string :=
  match s with
  | EmptyString => (EmptyString, EmptyString)
  | String a s' =>
      if p a then let '(h, t) := span p s' in (String a h, t)
      else (EmptyString, s)
  end.

End JsString.

(** ** Completions: normal return or a thrown value *)

(** A thrown value, as far as [catch (e)] in [resolveRoute] looks at it:
    [null], a primitive (including [undefined]), or an object together with
    the value of its numeric [type] property, if it has one. *)
Inductive Thrown : Type :=
| ThrownNull
| ThrownPrimitive
| ThrownObject (type : option Z).

(** A [TypeError] raised by the runtime: an object without [type]. *)
Definition TypeError : Thrown := ThrownObject None.

Inductive Completion (A : Type) : Type :=
| Normal (a : A)
| Throw (e : Thrown).
Arguments Normal {A} a.
Arguments Throw {A} e.

(** Sequencing: a [Throw] skips the rest; written [x ← c; k]. *)
#[global] Instance Completion_bind : MBind Completion :=
  fun A B (k : A -> Completion B) (c : Completion A) =>
    match c with
    | Normal a => k a
    | Throw e => Throw e
    end.

(** A value that may be [null] or [undefined]. *)
Inductive Nullable (A : Type) : Type :=
| JsNull
| JsUndefined
| JsValue (a : A).
Arguments JsNull {A}.
Arguments JsUndefined {A}.
Arguments JsValue {A} a.

(** ** The [ufo] URL helpers used by the resolver

    [parsePath], [withTrailingSlash] and [withoutTrailingSlash] belong to
    the [ufo] package; they are transcribed from its source (release 1.5),
    the last two in the mode the resolver selects with its second argument
    [true].  On an input without ["?"] and ["#"] every 1.x release computes
    the same results. *)

Module Ufo.
Import JsString.

Record ParsedURL : Type := {
  pathname : string;
  search : string;
  hash : string
}.

Definition is_line_terminator (a : ascii) : bool :=
  Ascii.eqb a "010"%char || Ascii.eqb a "013"%char.

(** [parsePath(input)]: the three groups of the regular expression it
    matches [input] against.  Group 1 is the longest prefix free of
    ["#"] and ["?"]; group 2, optional, is a ["?"] and everything up to the
    next ["#"]; group 3, optional, is a ["#"] and everything up to the next
    line terminator.  A group that does not take part is the empty string. *)
Definition parsePath (input : string) : ParsedURL :=
  let '(p, rest) :=
    span (fun a => negb (Ascii.eqb a "#"%char || Ascii.eqb a "?"%char)) input in
  let '(q, rest') :=
    match rest with
    | String "?"%char r =>
        let '(h, t) := span (fun a => negb (Ascii.eqb a "#"%char)) r in
        (String "?"%char h, t)
    | _ => (EmptyString, rest)
    end in
  let f :=
    match rest' with
    | String "#"%char r =>
        String "#"%char (fst (span (fun a => negb (is_line_terminator a)) r))
    | _ => EmptyString
    end in
  {| pathname := p; search := q; hash := f |}.

(** [hasTrailingSlash(input, true)]: [/\/$|\/\?|\/#/.test(input)]. *)
Definition hasTrailingSlash (input : string) : bool :=
  endsWith "/"%char input || includes "/?" input || includes "/#" input.

(** Splits [input] at its first ["#"] into path and fragment. *)
Definition cut_fragment (input : string) : string * string :=
  match indexOf "#" input with
  | Some i => (slice_to i input, slice_from i input)
  | None => (input, EmptyString)
  end.

(** The query suffix [s.length > 0 ? `?${s.join("?")}` : ""]. *)
Definition query_suffix (s : list string) : string :=
  match s with
  | [] => EmptyString
  | _ => "?" +:+ join "?" s
  end.

(** [withoutTrailingSlash(input, true)]:
<<
    if (!hasTrailingSlash(input, true)) return input || "/";
    let path = input; let fragment = "";
    const fragmentIndex = input.indexOf("#");
    if (fragmentIndex !== -1) {
      path = input.slice(0, fragmentIndex);
      fragment = input.slice(fragmentIndex);
    }
    const [s0, ...s] = path.split("?");
    const cleanPath = s0.endsWith("/") ? s0.slice(0, -1) : s0;
    return (cleanPath || "/") + (s.length > 0 ? `?${s.join("?")}` : "") + fragment;
>>  *)
Definition withoutTrailingSlash (input : string) : string :=
  if negb (hasTrailingSlash input) then or_else input "/"
  else
    let '(path, fragment) := cut_fragment input in
    match split_char "?"%char path with
    | [] => or_else EmptyString "/" +:+ fragment
    | s0 :: s =>
        let cleanPath := if endsWith "/"%char s0 then dropLast s0 else s0 in
        or_else cleanPath "/" +:+ query_suffix s +:+ fragment
    end.

(** [withTrailingSlash(input, true)]:
<<
    if (hasTrailingSlash(input, true)) return input || "/";
    let path = input; let fragment = "";
    const fragmentIndex = input.indexOf("#");
    if (fragmentIndex !== -1) {
      path = input.slice(0, fragmentIndex);
      fragment = input.slice(fragmentIndex);
      if (!path) return fragment;
    }
    const [s0, ...s] = path.split("?");
    return s0 + "/" + (s.length > 0 ? `?${s.join("?")}` : "") + fragment;
>>  *)
Definition withTrailingSlash (input : string) : string :=
  if hasTrailingSlash input then or_else input "/"
  else
    let '(path, fragment) := cut_fragment input in
    if negb (String.eqb fragment "") && String.eqb path "" then fragment
    else
      match split_char "?"%char path with
      | [] => "/" +:+ fragment
      | s0 :: s => s0 +:+ "/" +:+ query_suffix s +:+ fragment
      end.

End Ufo.

(** ** Data model *)

Definition Locale : Type := string.

(** The four routing strategies (the [Strategies] string union). *)
Inductive Strategies : Type :=
| PREFIX
| PREFIX_EXCEPT_DEFAULT
| PREFIX_AND_DEFAULT
| NO_PREFIX.

#[global] Instance Strategies_eq_dec : EqDecision Strategies.
Proof. solve_decision. Defined.

(** A route parameter or query value: one string or a list of strings. *)
Inductive ParamValue : Type :=
| PString (s : string)
| PArray (l : list string).

Abbreviation RouteParams := (gmap string ParamValue).
Abbreviation LocationQuery := (gmap string ParamValue).
Abbreviation HistoryState := (gmap string string).

(** Per-locale dynamic parameters, typed [Record<Locale, unknown>] in the
    source: the entry of a locale is [null] or an object of parameters (an
    absent entry reads as [undefined]). *)
Inductive DynParams : Type :=
| DNull
| DObject (p : RouteParams).

Abbreviation LocaleParams := (gmap Locale DynParams).

(** An entry of a route's [meta]: a falsy value or a per-locale record. *)
Inductive MetaEntry : Type :=
| MFalsy
| MRecord (r : LocaleParams).

(** [route.meta], held directly or behind a [Ref]. *)
Inductive RouteMeta : Type :=
| MetaPlain (m : gmap string MetaEntry)
| MetaRef (value : gmap string MetaEntry).

(** A property of an object literal on which the code runs [in]: it can be
    absent, present with value [undefined], or present with a value. *)
Inductive Field (A : Type) : Type :=
| Absent
| Undefined
| Value (a : A).
Arguments Absent {A}.
Arguments Undefined {A}.
Arguments Value {A} a.

(** ['k' in o]. *)
Definition has_field {A} (f : Field A) : bool :=
  match f with Absent => false | _ => true end.

(** [o.k]: [None] is [undefined]. *)
Definition read_field {A} (f : Field A) : option A :=
  match f with Value a => Some a | _ => None end.

(** Truthiness of an optional string: [undefined], [null] and [""] are falsy. *)
Definition truthy (o : option string) : bool :=
  match o with
  | Some s => negb (String.eqb s "")
  | None => false
  end.

(** A resolved route ([RouteLocation], [RouteLocationNormalizedLoaded]).
    [r_redirectedFrom] is the [fullPath] of [redirectedFrom], [r_matched] the
    names of the matched records; only route names that are strings are
    represented. *)
Record RouteLocation : Type := {
  r_name : option string;
  r_path : string;
  r_fullPath : string;
  r_params : RouteParams;
  r_query : LocationQuery;
  r_hash : string;
  r_meta : RouteMeta;
  r_matched : list string;
  r_redirectedFrom : option string;
  r_state : option HistoryState
}.

(** A route location object as callers write it ([RouteLocationPathRaw],
    [RouteLocationNamedRaw]) or as the code builds it.  The last four fields
    are those [routeToObject] carries over from a resolved route. *)
Record RouteLocationObject : Type := {
  l_path : Field string;
  l_name : Field string;
  l_params : option RouteParams;
  l_query : option LocationQuery;
  l_hash : option string;
  l_state : option HistoryState;
  l_fullPath : option string;
  l_meta : option RouteMeta;
  l_matched : option (list string);
  l_redirectedFrom : option string
}.

(** [RouteLocationRaw]: a string or a location object. *)
Inductive RouteLocationRaw : Type :=
| RouteString (s : string)
| RouteObject (o : RouteLocationObject).

Record Router : Type := {
  router_resolve : RouteLocationRaw -> Completion RouteLocation
}.

Record PrefixableOptions : Type := {
  currentLocale : Locale;
  defaultLocale : Locale;
  strategy : Strategies
}.

(** [dynamicParamsInterceptor?.()?.value]: the interceptor may be missing,
    its call may return a nullish value, and the reference it returns may
    hold a nullish value. *)
Definition DynamicParamsInterceptor : Type :=
  option (option (option LocaleParams)).

Record I18nRoutingOptions : Type := {
  o_routesNameSeparator : string;
  o_defaultLocale : Locale;
  o_defaultLocaleRouteNameSuffix : string;
  o_strategy : Strategies;
  o_trailingSlash : bool;
  o_prefixable : PrefixableOptions -> bool;
  o_switchLocalePathIntercepter : string -> Locale -> string;
  o_dynamicRouteParamsKey : string;
  o_dynamicParamsInterceptor : DynamicParamsInterceptor
}.

(** The receiver of every operation ([this: RoutingProxy]); [getLocale] of
    its [i18n] is [proxy_locale], [proxy_route] is the current route. *)
Record RoutingProxy : Type := {
  proxy_router : Router;
  proxy_locale : Locale;
  proxy_route : option RouteLocation
}.

(** Collaborators imported by [routing.ts] whose definitions are elsewhere. *)
Class Externals : Type := {
  (** [DEFAULT_DYNAMIC_PARAMS_KEY] of [vue-i18n-routing]. *)
  DEFAULT_DYNAMIC_PARAMS_KEY : string;
  (** [parseQuery] of [ufo]: a query string as a key to value-or-list map. *)
  parseQuery : string -> LocationQuery;
  (** [getI18nRoutingOptions(router, proxy)] of [./utils]. *)
  getI18nRoutingOptions : Router -> RoutingProxy -> I18nRoutingOptions;
  (** [resolve(router, route, strategy, locale)] of [./utils]: the discovery
      resolution of a path. *)
  resolve : Router -> RouteLocationObject -> Strategies -> Locale ->
            Completion RouteLocation;
  (** What [getRouteName] of [../utils] returns for a missing name. *)
  missingRouteName : string
}.

(** ** The operations of [routing.ts] *)

Import JsString.

Definition RESOLVED_PREFIXED : list Strategies :=
  [PREFIX_AND_DEFAULT; PREFIX_EXCEPT_DEFAULT].

(** [RESOLVED_PREFIXED.has(strategy)]. *)
Definition RESOLVED_PREFIXED_has (s : Strategies) : bool :=
  bool_decide (s ∈ RESOLVED_PREFIXED).

Definition prefixable (optons : PrefixableOptions) : bool :=
  let isDefaultLocale := String.eqb (currentLocale optons) (defaultLocale optons) in
  negb (isDefaultLocale && RESOLVED_PREFIXED_has (strategy optons))
  && negb (bool_decide (strategy optons = NO_PREFIX)).

Definition DefaultPrefixable : PrefixableOptions -> bool := prefixable.

Section Routing.
Context `{Externals}.

(** [getRouteName] of [../utils]: a string name is returned as it is. *)
Definition getRouteName (routeName : option string) : string :=
  match routeName with
  | Some s => s
  | None => missingRouteName
  end.

(** Modelled from the spec: [getLocaleRouteName] of [../utils], the
    [encode] operation of the name codec, is not part of this file.
    "Append separator + locale unless the strategy + locale combination
    calls for the default-locale suffix override instead of the literal
    locale token: when strategy is [prefix_and_default] and locale equals
    [defaultLocale], suffix is [defaultLocaleRouteNameSuffix], not locale.
    For [no_prefix] strategy, no suffix is appended at all." *)
Definition getLocaleRouteName (routeName : option string) (locale : Locale)
    (defaultLocale : Locale) (strategy : Strategies)
    (routesNameSeparator defaultLocaleRouteNameSuffix : string) : string :=
  match strategy with
  | NO_PREFIX => getRouteName routeName
  | PREFIX_AND_DEFAULT =>
      if String.eqb locale defaultLocale
      then getRouteName routeName +:+ routesNameSeparator +:+ defaultLocaleRouteNameSuffix
      else getRouteName routeName +:+ routesNameSeparator +:+ locale
  | _ => getRouteName routeName +:+ routesNameSeparator +:+ locale
  end.

(** The last two lines of [getRouteBaseName]:
    [getRouteName(route.name).split(routesNameSeparator)[0]]. *)
Definition baseNameOf (routesNameSeparator : string) (name : string)
    : option string :=
  split_head routesNameSeparator (getRouteName (Some name)).

(** [getRouteBaseName.call(this, givenRoute)]; [None] is [undefined]. *)
Definition getRouteBaseName (this : RoutingProxy)
    (givenRoute : option RouteLocation) : option string :=
  let routesNameSeparator :=
    o_routesNameSeparator (getI18nRoutingOptions (proxy_router this) this) in
  let route :=
    match givenRoute with
    | Some r => Some r
    | None => proxy_route this
    end in
  match route with
  | None => None
  | Some r =>
      if negb (truthy (r_name r)) then None
      else match r_name r with
           | Some name => baseNameOf routesNameSeparator name
           | None => None
           end
  end.

(** The object [{}], and the assignment of one property of an object. *)
Definition emptyLocation : RouteLocationObject :=
  {| l_path := Absent; l_name := Absent; l_params := None; l_query := None;
     l_hash := None; l_state := None; l_fullPath := None; l_meta := None;
     l_matched := None; l_redirectedFrom := None |}.

Definition with_path (p : Field string) (o : RouteLocationObject) :=
  {| l_path := p; l_name := l_name o; l_params := l_params o;
     l_query := l_query o; l_hash := l_hash o; l_state := l_state o;
     l_fullPath := l_fullPath o; l_meta := l_meta o;
     l_matched := l_matched o; l_redirectedFrom := l_redirectedFrom o |}.

Definition with_name (n : Field string) (o : RouteLocationObject) :=
  {| l_path := l_path o; l_name := n; l_params := l_params o;
     l_query := l_query o; l_hash := l_hash o; l_state := l_state o;
     l_fullPath := l_fullPath o; l_meta := l_meta o;
     l_matched := l_matched o; l_redirectedFrom := l_redirectedFrom o |}.

Definition with_params (p : option RouteParams) (o : RouteLocationObject) :=
  {| l_path := l_path o; l_name := l_name o; l_params := p;
     l_query := l_query o; l_hash := l_hash o; l_state := l_state o;
     l_fullPath := l_fullPath o; l_meta := l_meta o;
     l_matched := l_matched o; l_redirectedFrom := l_redirectedFrom o |}.

(** Lines 146-160 of [resolveRoute]: a string that starts with ["/"] is
    parsed as a path, any other string is a route name, an object is taken
    as it is. *)
Definition normalizeRoute (route : RouteLocationRaw) : RouteLocationObject :=
  match route with
  | RouteString s =>
      match s with
      | String "/"%char _ =>
          let parsed := Ufo.parsePath s in
          {| l_path := Value (Ufo.pathname parsed);
             l_query := Some (parseQuery (Ufo.search parsed));
             l_hash := Some (Ufo.hash parsed);
             l_name := Absent; l_params := None; l_state := None;
             l_fullPath := None; l_meta := None; l_matched := None;
             l_redirectedFrom := None |}
      | _ => with_name (Value s) emptyLocation
      end
  | RouteObject o => o
  end.

(** ['path' in val && !!val.path && !('name' in val)]. *)
Definition isRouteLocationPathRaw (val : RouteLocationObject) : bool :=
  has_field (l_path val) && truthy (read_field (l_path val))
  && negb (has_field (l_name val)).

(** [locale || getLocale(i18n)]. *)
Definition effectiveLocale (this : RoutingProxy) (locale : option Locale)
    : Locale :=
  if truthy locale then default (proxy_locale this) locale
  else proxy_locale this.

(** The path of a path-based descriptor without a named match
    (lines 195-201): the locale prefix if the policy asks for it, then the
    trailing-slash normalisation. *)
Definition localizedPath (opts : I18nRoutingOptions) (_locale : Locale)
    (path : string) : string :=
  let path1 :=
    if o_prefixable opts
         {| currentLocale := _locale; defaultLocale := o_defaultLocale opts;
            strategy := o_strategy opts |}
    then "/" +:+ _locale +:+ path
    else path in
  if o_trailingSlash opts then Ufo.withTrailingSlash path1
  else Ufo.withoutTrailingSlash path1.

(** Lines 140-214 of [resolveRoute]: the localized descriptor handed to
    the final resolution.  Reading [resolvedRoute.params] when the
    discovery resolution threw (so that [resolvedRoute] is [null]) raises a
    [TypeError], outside of any [try].  In the path branch the path is a
    non-empty string, by [isRouteLocationPathRaw]. *)
Definition localizeRoute (this : RoutingProxy) (route : RouteLocationRaw)
    (locale : option Locale) : Completion RouteLocationObject :=
  let router := proxy_router this in
  let _locale := effectiveLocale this locale in
  let opts := getI18nRoutingOptions router this in
  let encode (n : option string) :=
    getLocaleRouteName n _locale (o_defaultLocale opts) (o_strategy opts)
      (o_routesNameSeparator opts) (o_defaultLocaleRouteNameSuffix opts) in
  let localizedRoute := normalizeRoute route in
  if isRouteLocationPathRaw localizedRoute then
    let _resolvedRoute :=
      match resolve router localizedRoute (o_strategy opts) _locale with
      | Normal r => Some r
      | Throw _ => None
      end in
    match getRouteBaseName this _resolvedRoute with
    | Some resolvedRouteName =>
        match _resolvedRoute with
        | Some resolvedRoute =>
            Normal
              {| l_name := Value (encode (Some resolvedRouteName));
                 l_params := Some (r_params resolvedRoute);
                 l_query := Some (r_query resolvedRoute);
                 l_hash := Some (r_hash resolvedRoute);
                 l_state := r_state resolvedRoute;
                 l_path := Absent; l_fullPath := None; l_meta := None;
                 l_matched := None; l_redirectedFrom := None |}
        | None => Throw TypeError
        end
    | None =>
        Normal
          (with_path
             (Value (localizedPath opts _locale
                       (default "" (read_field (l_path localizedRoute)))))
             localizedRoute)
    end
  else
    let name :=
      if negb (truthy (read_field (l_name localizedRoute)))
         && negb (has_field (l_path localizedRoute))
      then getRouteBaseName this (proxy_route this)
      else read_field (l_name localizedRoute) in
    Normal (with_name (Value (encode name)) localizedRoute).

(** The [catch (e)] clause of [resolveRoute]:
    [typeof e === 'object' && 'type' in e && e.type === 1] returns [null];
    otherwise the function runs off its end and returns [undefined].
    For [e === null], ['type' in e] itself raises a [TypeError]. *)
Definition catchNoMatch (e : Thrown) : Completion (Nullable RouteLocation) :=
  match e with
  | ThrownObject type =>
      if bool_decide (type = Some 1%Z) then Normal JsNull
      else Normal JsUndefined
  | ThrownNull => Throw TypeError
  | ThrownPrimitive => Normal JsUndefined
  end.

(** Lines 216-229 of [resolveRoute]: the final resolution of the localized
    descriptor, with the retry on the caller's own route reference. *)
Definition finalResolve (router : Router) (localizedRoute : RouteLocationObject)
    (route : RouteLocationRaw) : Completion (Nullable RouteLocation) :=
  match router_resolve router (RouteObject localizedRoute) with
  | Normal resolvedRoute =>
      if truthy (r_name resolvedRoute) then Normal (JsValue resolvedRoute)
      else
        match router_resolve router route with
        | Normal r => Normal (JsValue r)
        | Throw e => catchNoMatch e
        end
  | Throw e => catchNoMatch e
  end.

(** The error a final resolution ends with, if any: that of the first
    attempt, or that of the retry after an unnamed first result. *)
Definition finalResolutionThrows (this : RoutingProxy)
    (route : RouteLocationRaw) (localizedRoute : RouteLocationObject)
    (e : Thrown) : Prop :=
  router_resolve (proxy_router this) (RouteObject localizedRoute) = Throw e
  \/ (exists unnamed : RouteLocation,
        router_resolve (proxy_router this) (RouteObject localizedRoute)
          = Normal unnamed
        /\ truthy (r_name unnamed) = false
        /\ router_resolve (proxy_router this) route = Throw e).

Definition resolveRoute (this : RoutingProxy) (route : RouteLocationRaw)
    (locale : option Locale) : Completion (Nullable RouteLocation) :=
  localizedRoute ← localizeRoute this route locale;
  finalResolve (proxy_router this) localizedRoute route.

(** [localizedRoute.redirectedFrom?.fullPath || localizedRoute.fullPath],
    or [""] when the resolver returned [null] or [undefined]. *)
Definition localePath (this : RoutingProxy) (route : RouteLocationRaw)
    (locale : option Locale) : Completion string :=
  localizedRoute ← resolveRoute this route locale;
  Normal
    match localizedRoute with
    | JsValue r =>
        if truthy (r_redirectedFrom r)
        then default "" (r_redirectedFrom r)
        else r_fullPath r
    | _ => ""
    end.

(** [None] is [undefined]. *)
Definition localeRoute (this : RoutingProxy) (route : RouteLocationRaw)
    (locale : option Locale) : Completion (option RouteLocation) :=
  resolved ← resolveRoute this route locale;
  Normal match resolved with JsValue r => Some r | _ => None end.

Definition localeLocation (this : RoutingProxy) (route : RouteLocationRaw)
    (locale : option Locale) : Completion (option RouteLocation) :=
  resolved ← resolveRoute this route locale;
  Normal match resolved with JsValue r => Some r | _ => None end.

Definition DefaultSwitchLocalePathIntercepter (path : string) (_ : Locale)
    : string := path.

(** [o || {}] on a per-locale record of [meta]. *)
Definition meta_or_default (e : option MetaEntry) : LocaleParams :=
  match e with
  | Some (MRecord r) => r
  | _ => ∅
  end.

Definition getLocalizableMetaFromDynamicParams (route : RouteLocation)
    (key : string) : LocaleParams :=
  let metaDefault : LocaleParams := ∅ in
  if String.eqb key DEFAULT_DYNAMIC_PARAMS_KEY then metaDefault
  else
    match r_meta route with
    | MetaRef value => meta_or_default (value !! key)
    | MetaPlain meta => meta_or_default (meta !! key)
    end.

(** Modelled from the spec: [routeToObject] of [./utils] is not part of
    this file; the candidate route is "the current route's fields overlaid
    with" a name and params, so the copy carries every field of the
    route. *)
Definition routeToObject (route : RouteLocation) : RouteLocationObject :=
  {| l_path := Value (r_path route);
     l_name := match r_name route with Some n => Value n | None => Undefined end;
     l_params := Some (r_params route);
     l_query := Some (r_query route);
     l_hash := Some (r_hash route);
     l_state := None;
     l_fullPath := Some (r_fullPath route);
     l_meta := Some (r_meta route);
     l_matched := Some (r_matched route);
     l_redirectedFrom := r_redirectedFrom route |}.

(** [dynamicParamsInterceptor?.()?.value?.[locale]]. *)
Definition langSwitchParamsIntercepted (opts : I18nRoutingOptions)
    (locale : Locale) : option DynParams :=
  match o_dynamicParamsInterceptor opts with
  | Some (Some (Some value)) => value !! locale
  | _ => None
  end.

(** [getLocalizableMetaFromDynamicParams(route, key)[locale] || {}]. *)
Definition langSwitchParams (opts : I18nRoutingOptions)
    (route : RouteLocation) (locale : Locale) : RouteParams :=
  match getLocalizableMetaFromDynamicParams route
          (o_dynamicRouteParamsKey opts) !! locale with
  | Some (DObject p) => p
  | _ => ∅
  end.

(** [langSwitchParamsIntercepted ?? langSwitchParams ?? {}]:
    [??] skips [null] and [undefined] only. *)
Definition resolvedParams (opts : I18nRoutingOptions) (route : RouteLocation)
    (locale : Locale) : RouteParams :=
  match langSwitchParamsIntercepted opts locale with
  | Some (DObject p) => p
  | _ => langSwitchParams opts route locale
  end.

(** [assign({}, routeCopy, { name, params: { ...routeCopy.params,
    ...resolvedParams } })]: in a spread the later source wins, which is
    the left operand of [∪]. *)
Definition switchBaseRoute (opts : I18nRoutingOptions) (name : string)
    (routeValue : RouteLocation) (locale : Locale) : RouteLocationObject :=
  let routeCopy := routeToObject routeValue in
  with_params
    (Some (resolvedParams opts routeValue locale
           ∪ default ∅ (l_params routeCopy)))
    (with_name (Value name) routeCopy).

(** A base name implies a current route, so the [TypeError] branch (reading
    the fields of a [null] route) is never taken. *)
Definition switchLocalePath (this : RoutingProxy) (locale : Locale)
    : Completion string :=
  let route := proxy_route this in
  let name := getRouteBaseName this route in
  if negb (truthy name) then Normal ""
  else
    let opts := getI18nRoutingOptions (proxy_router this) this in
    match route with
    | None => Throw TypeError
    | Some routeValue =>
        let baseRoute :=
          switchBaseRoute opts (default "" name) routeValue locale in
        path ← localePath this (RouteObject baseRoute) (Some locale);
        Normal (o_switchLocalePathIntercepter opts path locale)
    end.

End Routing.

(** ** Concrete configurations *)

Module Samples.

(** An unnamed route, as the router returns for a path that matches no
    record. *)
Definition unnamed (fullPath : string) : RouteLocation :=
  {| r_name := None; r_path := fullPath; r_fullPath := fullPath;
     r_params := ∅; r_query := ∅; r_hash := ""; r_meta := MetaPlain ∅;
     r_matched := []; r_redirectedFrom := None; r_state := None |}.

(** A named route with parameters and metadata. *)
Definition named (name fullPath : string) (params : RouteParams)
    (meta : RouteMeta) : RouteLocation :=
  {| r_name := Some name; r_path := fullPath; r_fullPath := fullPath;
     r_params := params; r_query := ∅; r_hash := ""; r_meta := meta;
     r_matched := [name]; r_redirectedFrom := None; r_state := None |}.

Definition options (strategy : Strategies) (trailingSlash : bool)
    (key : string) (interceptor : DynamicParamsInterceptor)
    : I18nRoutingOptions :=
  {| o_routesNameSeparator := "___";
     o_defaultLocale := "en";
     o_defaultLocaleRouteNameSuffix := "default";
     o_strategy := strategy;
     o_trailingSlash := trailingSlash;
     o_prefixable := DefaultPrefixable;
     o_switchLocalePathIntercepter := DefaultSwitchLocalePathIntercepter;
     o_dynamicRouteParamsKey := key;
     o_dynamicParamsInterceptor := interceptor |}.

(** Externals with fixed options and a discovery resolution that answers
    [discovery] for every path. *)
Definition externals (opts : I18nRoutingOptions)
    (discovery : Completion RouteLocation) : Externals :=
  {| DEFAULT_DYNAMIC_PARAMS_KEY := "";
     parseQuery := fun _ => ∅;
     getI18nRoutingOptions := fun _ _ => opts;
     resolve := fun _ _ _ _ => discovery;
     missingRouteName := "(null)" |}.

(** A router that answers every reference the same way. *)
Definition constRouter (answer : Completion RouteLocation) : Router :=
  {| router_resolve := fun _ => answer |}.

Definition proxy (router : Router) (route : option RouteLocation)
    : RoutingProxy :=
  {| proxy_router := router; proxy_locale := "en"; proxy_route := route |}.

(** Strategy [prefix], no trailing slash, no dynamic parameters; the
    discovery resolution fails for every path. *)
Definition prefixEnv : Externals :=
  externals (options PREFIX false "" None) (Throw ThrownPrimitive).

(** A proxy without a current route over a constant router. *)
Definition proxyOf (answer : Completion RouteLocation) : RoutingProxy :=
  proxy (constRouter answer) None.

(** A blog post in English: the current route of the switching examples.
    Its metadata holds, under [key], a French slug. *)
Definition postMeta (key : string) : RouteMeta :=
  MetaPlain
    {[ key := MRecord {[ "fr" := DObject {[ "slug" := PString "bonjour" ]} ]} ]}.

Definition post (key : string) : RouteLocation :=
  named "post___en" "/en/post/hello"
    {[ "slug" := PString "hello"; "id" := PString "7" ]} (postMeta key).

(** The options of the switching examples: dynamic parameters under [key]. *)
Definition switchEnv (key : string) : Externals :=
  externals (options PREFIX false key None) (Throw ThrownPrimitive).

(** A proxy whose current route is [current], over a router that answers
    every reference with the French post. *)
Definition switchProxy (current : RouteLocation) : RoutingProxy :=
  proxy
    (constRouter
       (Normal (named "post___fr" "/fr/post/bonjour"
                  {[ "slug" := PString "bonjour"; "id" := PString "7" ]}
                  (MetaPlain ∅))))
    (Some current).

(** The discovery resolution finds the English ["about"] for every path. *)
Definition discoveryEnv : Externals :=
  externals (options PREFIX false "" None)
    (Normal (named "about___en" "/about" ∅ (MetaPlain ∅))).

(** The reference [{ name: "about", path: "/x/" }]. *)
Definition aboutWithPath : RouteLocationObject :=
  with_path (Value "/x/") (with_name (Value "about") emptyLocation).



(** An interceptor that supplies an empty object for French. *)
Definition emptyFrenchInterceptor : DynamicParamsInterceptor :=
  Some (Some (Some {[ "fr" := DObject ∅ ]})).

(** An interceptor that supplies its own French slug, and the externals
    whose options carry it (dynamic parameters under ["i18nParams"]). *)
Definition salutInterceptor : DynamicParamsInterceptor :=
  Some (Some (Some {[ "fr" := DObject {[ "slug" := PString "salut" ]} ]})).

Definition interceptedEnv : Externals :=
  externals (options PREFIX false "i18nParams" salutInterceptor)
    (Throw ThrownPrimitive).

End Samples.

(** ** String lemmas *)

Section StringFacts.
Import JsString.

Lemma indexOf_unfold pat s :
  indexOf pat s =
  if String.prefix pat s then Some 0
  else match s with
       | EmptyString => None
       | String _ s' => S <$> indexOf pat s'
       end.
Proof. destruct s; reflexivity. Qed.

Lemma append_nil_l (s : string) : "" +:+ s = s.
Proof. reflexivity. Qed.

Lemma append_cons (x : ascii) (a b : string) :
  String x a +:+ b = String x (a +:+ b).
Proof. reflexivity. Qed.

Lemma append_assoc (a b c : string) : (a +:+ b) +:+ c = a +:+ (b +:+ c).
Proof.
  induction a as [|x a IH]; [reflexivity|].
  rewrite !append_cons. f_equal. exact IH.
Qed.

Lemma length_append (a b : string) :
  String.length (a +:+ b) = String.length a + String.length b.
Proof.
  induction a as [|x a IH]; [reflexivity|].
  rewrite append_cons. simpl. f_equal. exact IH.
Qed.

Lemma prefix_nil s : String.prefix "" s = true.
Proof. destruct s; reflexivity. Qed.

Lemma prefix_cons a pat b s :
  String.prefix (String a pat) (String b s) =
  if ascii_dec a b then String.prefix pat s else false.
Proof. reflexivity. Qed.

Lemma prefix_refl pat : String.prefix pat pat = true.
Proof.
  induction pat as [|a pat IH]; [reflexivity|].
  rewrite prefix_cons. destruct (ascii_dec a a); [exact IH | congruence].
Qed.

Lemma prefix_append_l pat x l :
  String.prefix pat x = true -> String.prefix pat (x +:+ l) = true.
Proof.
  revert x. induction pat as [|a pat IH]; intros x Hp.
  - apply prefix_nil.
  - destruct x as [|b x]; [discriminate|].
    rewrite append_cons, prefix_cons. rewrite prefix_cons in Hp.
    destruct (ascii_dec a b); [now apply IH | discriminate].
Qed.

Lemma prefix_self_append pat l : String.prefix pat (pat +:+ l) = true.
Proof. apply prefix_append_l, prefix_refl. Qed.

Lemma prefix_append_short pat x l :
  String.prefix pat (x +:+ l) = true ->
  (String.length pat <= String.length x)%nat ->
  String.prefix pat x = true.
Proof.
  revert x. induction pat as [|a pat IH]; intros x Hp Hlen.
  - apply prefix_nil.
  - destruct x as [|b x]; [simpl in Hlen; lia|].
    rewrite append_cons, prefix_cons in Hp. rewrite prefix_cons.
    destruct (ascii_dec a b); [|discriminate].
    apply IH; [assumption | simpl in Hlen; lia].
Qed.

Lemma substring_append_l b x :
  substring 0 (String.length b) (b +:+ x) = b.
Proof.
  induction b as [|a b IH].
  - rewrite append_nil_l. destruct x; reflexivity.
  - rewrite append_cons. simpl. f_equal. exact IH.
Qed.

(** An occurrence found at the end of [b +:+ pat] is still the first one
    when more text follows, and conversely. *)
Lemma indexOf_boundary pat b l :
  indexOf pat (b +:+ pat) = Some (String.length b) <->
  indexOf pat (b +:+ pat +:+ l) = Some (String.length b).
Proof.
  induction b as [|a b IH].
  - rewrite !append_nil_l, !(indexOf_unfold pat).
    rewrite prefix_self_append, prefix_refl. tauto.
  - rewrite !append_cons.
    rewrite (indexOf_unfold pat (String a (b +:+ pat))).
    rewrite (indexOf_unfold pat (String a (b +:+ pat +:+ l))).
    assert (Hassoc : String a (b +:+ pat +:+ l) = String a (b +:+ pat) +:+ l)
      by (now rewrite append_cons, append_assoc).
    destruct (String.prefix pat (String a (b +:+ pat))) eqn:Hp.
    + rewrite Hassoc, (prefix_append_l _ _ l Hp). split; discriminate.
    + assert (String.prefix pat (String a (b +:+ pat +:+ l)) = false) as ->.
      { destruct (String.prefix pat (String a (b +:+ pat +:+ l))) eqn:Hq;
          [|reflexivity].
        rewrite Hassoc in Hq.
        apply prefix_append_short in Hq; [congruence|].
        simpl. rewrite length_append. lia. }
      simpl String.length.
      destruct (indexOf pat (b +:+ pat)) as [i|] eqn:Hi,
               (indexOf pat (b +:+ pat +:+ l)) as [j|] eqn:Hj; simpl.
      * split; intros [= ->]; f_equal; f_equal.
        -- destruct IH as [IH _]. specialize (IH eq_refl). congruence.
        -- destruct IH as [_ IH]. specialize (IH eq_refl). congruence.
      * split; [intros [= ->] | discriminate].
        destruct IH as [IH _]. specialize (IH eq_refl). discriminate.
      * split; [discriminate | intros [= ->]].
        destruct IH as [_ IH]. specialize (IH eq_refl). discriminate.
      * split; discriminate.
Qed.

Lemma prefix_length pat s :
  String.prefix pat s = true -> (String.length pat <= String.length s)%nat.
Proof.
  revert s. induction pat as [|a pat IH]; intros s Hp; [simpl; lia|].
  destruct s as [|b s]; [discriminate|]. rewrite prefix_cons in Hp.
  destruct (ascii_dec a b); [|discriminate].
  specialize (IH s Hp). simpl. lia.
Qed.

Lemma indexOf_bound pat s i :
  indexOf pat s = Some i ->
  (i + String.length pat <= String.length s)%nat.
Proof.
  revert i. induction s as [|a s IH]; intros i; rewrite indexOf_unfold.
  - destruct (String.prefix pat "") eqn:Hp; [|discriminate].
    intros [= <-]. now apply prefix_length in Hp.
  - destruct (String.prefix pat (String a s)) eqn:Hp.
    + intros [= <-]. now apply prefix_length in Hp.
    + destruct (indexOf pat s) as [j|]; [|discriminate].
      intros [= <-]. specialize (IH j eq_refl). simpl. lia.
Qed.

Lemma substring_length n s :
  (n <= String.length s)%nat -> String.length (substring 0 n s) = n.
Proof.
  revert n. induction s as [|a s IH]; intros [|n] Hn; simpl in *;
    try reflexivity; try lia.
  f_equal. apply IH. lia.
Qed.

Lemma includes_nil s : includes "" s = true.
Proof. unfold includes. rewrite indexOf_unfold, prefix_nil. reflexivity. Qed.

Lemma includes_false_indexOf pat s :
  includes pat s = false -> indexOf pat s = None.
Proof. unfold includes. destruct (indexOf pat s); [discriminate | reflexivity]. Qed.

Lemma includes_false_nonempty pat s : includes pat s = false -> pat <> "".
Proof. intros Hi ->. rewrite includes_nil in Hi. discriminate. Qed.

End StringFacts.

(** ** Prefix policy *)

(** C2.  The default [prefixable] predicate answers [false] exactly when the
    strategy is [no_prefix], or the current locale is the default locale and
    the strategy is [prefix_and_default] or [prefix_except_default]; in every
    other case it answers [true], and for the strategy [prefix] it answers
    [true] whatever the locales are. *)
Theorem prefixable_rule (cur def : Locale) (s : Strategies) :
  (DefaultPrefixable {| currentLocale := cur; defaultLocale := def; strategy := s |}
     = false
   <-> s = NO_PREFIX
       \/ (cur = def /\ (s = PREFIX_AND_DEFAULT \/ s = PREFIX_EXCEPT_DEFAULT)))
  /\ (DefaultPrefixable {| currentLocale := cur; defaultLocale := def; strategy := s |}
        = true
      <-> s <> NO_PREFIX
          /\ ~ (cur = def /\ (s = PREFIX_AND_DEFAULT \/ s = PREFIX_EXCEPT_DEFAULT)))
  /\ DefaultPrefixable
       {| currentLocale := cur; defaultLocale := def; strategy := PREFIX |} = true.
Proof.
  unfold DefaultPrefixable, prefixable, RESOLVED_PREFIXED_has, RESOLVED_PREFIXED.
  cbn [currentLocale defaultLocale strategy].
  destruct (String.eqb_spec cur def) as [Heq | Hne].
  - destruct s; vm_compute; intuition congruence.
  - destruct s; vm_compute; intuition congruence.
Qed.

(** ** Name codec *)

Section NameCodec.
Context `{Externals}.
Import JsString.

(** C3 (amended).  Decoding an encoded name gives the base name back for
    every base name [b] that does not contain the separator, provided that,
    when the strategy appends a suffix (every strategy but [no_prefix]), the
    first occurrence of the separator in [b] followed by the separator is the
    appended one: no occurrence starts inside [b] and runs over its end. *)
Theorem baseName_of_localized_name (b : string) (locale defaultLocale : Locale)
    (strategy : Strategies) (sep suffix : string) :
  includes sep b = false ->
  (strategy <> NO_PREFIX ->
   indexOf sep (b +:+ sep) = Some (String.length b)) ->
  baseNameOf sep
    (getLocaleRouteName (Some b) locale defaultLocale strategy sep suffix)
  = Some b.
Proof.
  intros Hinc Hbound.
  pose proof (includes_false_nonempty _ _ Hinc) as Hsep.
  assert (Hsuffixed : forall x, strategy <> NO_PREFIX ->
            baseNameOf sep (b +:+ sep +:+ x) = Some b).
  { intros x Hs. unfold baseNameOf, getRouteName, split_head.
    destruct sep as [|c sep']; [congruence|].
    apply Hbound in Hs. apply (indexOf_boundary _ _ x) in Hs. rewrite Hs.
    unfold slice_to. now rewrite substring_append_l. }
  unfold getLocaleRouteName, getRouteName.
  destruct strategy; try (apply Hsuffixed; discriminate).
  - destruct (String.eqb locale defaultLocale); apply Hsuffixed; discriminate.
  - unfold baseNameOf, getRouteName, split_head.
    destruct sep as [|c sep']; [congruence|].
    now rewrite (includes_false_indexOf _ _ Hinc).
Qed.

(** The condition on the boundary cannot be dropped: for a non-empty
    separator and a strategy that appends a suffix, decoding gives [b] back
    only if the appended separator is the first occurrence. *)
Lemma baseName_roundtrip_needs_boundary (b : string)
    (locale defaultLocale : Locale) (strategy : Strategies)
    (sep suffix : string) :
  sep <> "" ->
  strategy <> NO_PREFIX ->
  baseNameOf sep
    (getLocaleRouteName (Some b) locale defaultLocale strategy sep suffix)
  = Some b ->
  indexOf sep (b +:+ sep) = Some (String.length b).
Proof.
  intros Hsep Hs.
  assert (Hsuffixed : forall x,
            baseNameOf sep (b +:+ sep +:+ x) = Some b ->
            indexOf sep (b +:+ sep) = Some (String.length b)).
  { intros x. unfold baseNameOf, getRouteName, split_head.
    destruct sep as [|c sep']; [congruence|].
    destruct (indexOf (String c sep') (b +:+ String c sep' +:+ x)) as [i|] eqn:Hi.
    - intros [= Hsub]. apply (indexOf_boundary _ _ x). rewrite Hi. f_equal.
      pose proof (indexOf_bound _ _ _ Hi) as Hle.
      apply (f_equal String.length) in Hsub. unfold slice_to in Hsub.
      rewrite substring_length in Hsub; [exact Hsub | lia].
    - intros [= Hall]. apply (f_equal String.length) in Hall.
      rewrite !length_append in Hall. simpl in Hall. lia. }
  unfold getLocaleRouteName, getRouteName.
  destruct strategy; try apply Hsuffixed; [|congruence].
  destruct (String.eqb locale defaultLocale); apply Hsuffixed.
Qed.

End NameCodec.

(** C3, a witness: the base name ["about"] with the separator ["___"],
    strategy [prefix_and_default] and the default locale. *)
Lemma baseName_of_localized_name_about :
  @baseNameOf (Samples.externals (Samples.options PREFIX_AND_DEFAULT false "" None)
                 (Throw ThrownPrimitive)) "___"
    (@getLocaleRouteName
       (Samples.externals (Samples.options PREFIX_AND_DEFAULT false "" None)
          (Throw ThrownPrimitive))
       (Some "about") "en" "en" PREFIX_AND_DEFAULT "___" "default")
  = Some "about".
Proof.
  apply baseName_of_localized_name.
  - vm_compute. reflexivity.
  - intros _. vm_compute. reflexivity.
Defined.

(** C3, as stated, fails: the base name ["a_"] does not contain the
    separator ["___"], yet ["a_" +:+ "___" +:+ "fr"] holds the separator one
    position earlier than the appended one, and decoding yields ["a"]. *)
Lemma baseName_roundtrip_fails_across_boundary :
  ~ (forall (E : Externals) (b : string) (locale defaultLocale : Locale)
            (strategy : Strategies) (sep suffix : string),
        JsString.includes sep b = false ->
        baseNameOf sep
          (getLocaleRouteName (Some b) locale defaultLocale strategy sep suffix)
        = Some b).
Proof.
  intros Hall.
  specialize (Hall (Samples.externals (Samples.options PREFIX false "" None)
                      (Throw ThrownPrimitive))
                   "a_" "fr" "en" PREFIX "___" "default" eq_refl).
  vm_compute in Hall. discriminate Hall.
Qed.

(** ** Trailing-slash normalisation on a path without query and fragment *)

Section TrailingSlash.
Import JsString Ufo.

Lemma includes_char_cons (c a : ascii) (s : string) :
  includes (String c "") (String a s) = false ->
  a <> c /\ includes (String c "") s = false.
Proof.
  unfold includes. rewrite indexOf_unfold, prefix_cons, prefix_nil.
  destruct (ascii_dec c a) as [->|Hne]; [discriminate|].
  destruct (indexOf (String c "") s); [discriminate|]. now split.
Qed.

Lemma includes_after_slash (c : ascii) (s : string) :
  includes (String c "") s = false ->
  includes (String "/" (String c "")) s = false.
Proof.
  induction s as [|a s IH]; intros Hc; [reflexivity|].
  apply includes_char_cons in Hc as [Hne Hs].
  specialize (IH Hs). unfold includes in *.
  rewrite indexOf_unfold, prefix_cons.
  destruct (indexOf (String "/" (String c "")) s); [discriminate|].
  destruct (ascii_dec "/" a); [|reflexivity].
  destruct s as [|b s]; [reflexivity|].
  apply includes_char_cons in Hs as [Hb _].
  rewrite prefix_cons, prefix_nil.
  destruct (ascii_dec c b); [congruence | reflexivity].
Qed.

Lemma split_char_absent (c : ascii) (s : string) :
  includes (String c "") s = false -> split_char c s = [s].
Proof.
  induction s as [|a s IH]; intros Hc; [reflexivity|].
  apply includes_char_cons in Hc as [Hne Hs]. simpl.
  apply Ascii.eqb_neq in Hne. rewrite Hne, (IH Hs). reflexivity.
Qed.

Lemma cut_fragment_absent (s : string) :
  includes "#" s = false -> cut_fragment s = (s, "").
Proof.
  intros Hc. unfold cut_fragment.
  now rewrite (includes_false_indexOf _ _ Hc).
Qed.

Lemma hasTrailingSlash_plain (s : string) :
  includes "?" s = false -> includes "#" s = false ->
  hasTrailingSlash s = endsWith "/" s.
Proof.
  intros Hq Hf. unfold hasTrailingSlash.
  rewrite (includes_after_slash _ _ Hq), (includes_after_slash _ _ Hf).
  now rewrite !orb_false_r.
Qed.

Lemma append_nil_r (s : string) : s +:+ "" = s.
Proof.
  induction s as [|a s IH]; [reflexivity|]. rewrite append_cons. now f_equal.
Qed.

Lemma or_else_nonempty (s d : string) : s <> "" -> or_else s d = s.
Proof.
  intros Hs. unfold or_else.
  destruct (String.eqb_spec s ""); [contradiction | reflexivity].
Qed.

Lemma withTrailingSlash_plain (s : string) :
  s <> "" -> includes "?" s = false -> includes "#" s = false ->
  withTrailingSlash s = if endsWith "/" s then s else s +:+ "/".
Proof.
  intros Hs Hq Hf. unfold withTrailingSlash.
  rewrite (hasTrailingSlash_plain _ Hq Hf).
  destruct (endsWith "/" s); [now apply or_else_nonempty|].
  rewrite (cut_fragment_absent _ Hf). cbn [negb andb String.eqb].
  rewrite (split_char_absent _ _ Hq). cbn [query_suffix].
  now rewrite append_nil_l, append_nil_r.
Qed.

Lemma withoutTrailingSlash_plain (s : string) :
  s <> "" -> includes "?" s = false -> includes "#" s = false ->
  withoutTrailingSlash s =
  if endsWith "/" s then or_else (dropLast s) "/" else s.
Proof.
  intros Hs Hq Hf. unfold withoutTrailingSlash.
  rewrite (hasTrailingSlash_plain _ Hq Hf).
  destruct (endsWith "/" s) eqn:He; cbn [negb].
  - rewrite (cut_fragment_absent _ Hf), (split_char_absent _ _ Hq), He.
    cbn [query_suffix]. now rewrite append_nil_l, append_nil_r.
  - now apply or_else_nonempty.
Qed.

Lemma endsWith_append_char (c : ascii) (s : string) :
  endsWith c (s +:+ String c "") = true.
Proof.
  induction s as [|a s IH].
  - rewrite append_nil_l. simpl. apply Ascii.eqb_refl.
  - rewrite append_cons. destruct s as [|b s]; [|exact IH].
    rewrite append_nil_l in *. exact IH.
Qed.

End TrailingSlash.

(** ** The resolver *)

Section Resolver.
Context `{Externals}.
Import JsString Ufo.

(** The name-less outcome of the discovery resolution sends a path-based
    descriptor down the prefixing branch. *)
Lemma localizeRoute_unnamed_path (this : RoutingProxy) (route : RouteLocationRaw)
    (locale : option Locale) (path : string) (r : RouteLocation) :
  let opts := getI18nRoutingOptions (proxy_router this) this in
  let _locale := effectiveLocale this locale in
  isRouteLocationPathRaw (normalizeRoute route) = true ->
  l_path (normalizeRoute route) = Value path ->
  resolve (proxy_router this) (normalizeRoute route) (o_strategy opts) _locale
    = Normal r ->
  truthy (r_name r) = false ->
  localizeRoute this route locale =
  Normal (with_path (Value (localizedPath opts _locale path)) (normalizeRoute route)).
Proof.
  intros opts _locale Hraw Hpath Hres Hname.
  unfold localizeRoute. fold opts. fold _locale.
  rewrite Hraw, Hres. unfold getRouteBaseName.
  rewrite Hname. cbn [negb]. rewrite Hpath. reflexivity.
Qed.

(** C1 (amended).  For a path-based route reference (non-empty path, no
    name) whose discovery resolution returns a route without a name, the
    descriptor handed to the final resolution keeps every field but the path;
    the path is prefixed with ["/" +:+ locale] exactly when the configured
    prefix policy holds for (locale, defaultLocale, strategy), and is then
    passed to [withTrailingSlash] or [withoutTrailingSlash] according to
    [trailingSlash].  When the prefixed path has no ["?"] and no ["#"]: with
    [trailingSlash] a ["/"] is appended unless one is there already, so the
    result ends with ["/"]; without it one trailing ["/"] is removed, except
    that the root path ["/"] stays ["/"], so the result does not end with
    ["/"] unless the prefixed path is the root or ends with two slashes. *)
Theorem resolveRoute_unnamed_path (this : RoutingProxy) (route : RouteLocationRaw)
    (locale : option Locale) (path : string) (r : RouteLocation) :
  let opts := getI18nRoutingOptions (proxy_router this) this in
  let _locale := effectiveLocale this locale in
  let prefixed :=
    if o_prefixable opts
         {| currentLocale := _locale; defaultLocale := o_defaultLocale opts;
            strategy := o_strategy opts |}
    then "/" +:+ _locale +:+ path else path in
  let localized := localizedPath opts _locale path in
  isRouteLocationPathRaw (normalizeRoute route) = true ->
  l_path (normalizeRoute route) = Value path ->
  resolve (proxy_router this) (normalizeRoute route) (o_strategy opts) _locale
    = Normal r ->
  truthy (r_name r) = false ->
  localizeRoute this route locale
    = Normal (with_path (Value localized) (normalizeRoute route))
  /\ resolveRoute this route locale
     = finalResolve (proxy_router this)
         (with_path (Value localized) (normalizeRoute route)) route
  /\ localized = (if o_trailingSlash opts then withTrailingSlash prefixed
                  else withoutTrailingSlash prefixed)
  /\ (includes "?" prefixed = false -> includes "#" prefixed = false ->
      (o_trailingSlash opts = true ->
       localized = (if endsWith "/" prefixed then prefixed else prefixed +:+ "/")
       /\ endsWith "/" localized = true)
      /\ (o_trailingSlash opts = false ->
          localized = (if endsWith "/" prefixed
                       then or_else (dropLast prefixed) "/" else prefixed)
          /\ (prefixed <> "/" -> endsWith "/" (dropLast prefixed) = false ->
              endsWith "/" localized = false))).
Proof.
  intros opts _locale prefixed localized Hraw Hpath Hres Hname.
  pose proof (localizeRoute_unnamed_path this route locale path r
                Hraw Hpath Hres Hname) as Hloc.
  fold opts _locale localized in Hloc.
  assert (Hne : prefixed <> "").
  { subst prefixed. destruct (o_prefixable opts _); [discriminate|].
    intros ->. unfold isRouteLocationPathRaw in Hraw. rewrite Hpath in Hraw.
    cbn in Hraw. discriminate Hraw. }
  split; [exact Hloc|]. split.
  { unfold resolveRoute. now rewrite Hloc. }
  split; [reflexivity|].
  intros Hq Hf. split; intros Hts; subst localized; unfold localizedPath;
    fold prefixed; rewrite Hts.
  - rewrite (withTrailingSlash_plain _ Hne Hq Hf). split; [reflexivity|].
    destruct (endsWith "/" prefixed) eqn:He; [exact He|].
    apply endsWith_append_char.
  - rewrite (withoutTrailingSlash_plain _ Hne Hq Hf). split; [reflexivity|].
    intros Hroot Hdouble.
    destruct (endsWith "/" prefixed) eqn:He; [|exact He].
    rewrite or_else_nonempty; [exact Hdouble|].
    intros Hd. apply Hroot. clear -He Hd.
    destruct prefixed as [|a [|b s]]; try discriminate.
    simpl in He. apply Ascii.eqb_eq in He. now subst.
Qed.

(** When the discovery resolution throws, the error is dropped and the base
    name is taken from the current route; if there is one, reading the
    parameters of the missing discovery result raises a [TypeError] before
    the final resolution is tried. *)
Lemma localizeRoute_discovery_throws (this : RoutingProxy)
    (route : RouteLocationRaw) (locale : option Locale) (e : Thrown)
    (name : string) :
  let opts := getI18nRoutingOptions (proxy_router this) this in
  isRouteLocationPathRaw (normalizeRoute route) = true ->
  resolve (proxy_router this) (normalizeRoute route) (o_strategy opts)
    (effectiveLocale this locale) = Throw e ->
  getRouteBaseName this (proxy_route this) = Some name ->
  resolveRoute this route locale = Throw TypeError.
Proof.
  intros opts Hraw Hres Hname.
  unfold resolveRoute, localizeRoute. fold opts. rewrite Hraw, Hres.
  replace (getRouteBaseName this None)
    with (getRouteBaseName this (proxy_route this))
    by (unfold getRouteBaseName; now destruct (proxy_route this)).
  now rewrite Hname.
Qed.

End Resolver.

(** C1, the scenario of the specification: strategy [prefix], the path
    ["/about"] without a matching named route, locale ["fr"] and no trailing
    slash give the localized path ["/fr/about"]. *)
Lemma resolveRoute_unnamed_path_about :
  @localizeRoute
    (Samples.externals (Samples.options PREFIX false "" None)
       (Normal (Samples.unnamed "/about")))
    (Samples.proxy (Samples.constRouter (Throw (ThrownObject (Some 1%Z)))) None)
    (RouteString "/about") (Some "fr")
  = Normal
      {| l_path := Value "/fr/about"; l_name := Absent; l_params := None;
         l_query := Some ∅; l_hash := Some ""; l_state := None;
         l_fullPath := None; l_meta := None; l_matched := None;
         l_redirectedFrom := None |}
  /\ JsString.endsWith "/" "/fr/about" = false.
Proof.
  pose proof
    (@resolveRoute_unnamed_path
       (Samples.externals (Samples.options PREFIX false "" None)
          (Normal (Samples.unnamed "/about")))
       (Samples.proxy (Samples.constRouter (Throw (ThrownObject (Some 1%Z)))) None)
       (RouteString "/about") (Some "fr") "/about" (Samples.unnamed "/about")
       eq_refl eq_refl eq_refl eq_refl) as [Hloc [_ [_ Hslash]]].
  split; [exact Hloc|].
  apply (Hslash eq_refl eq_refl); [reflexivity | discriminate | reflexivity].
Defined.

(** C1, as stated, fails on the root path: with strategy [no_prefix] and no
    trailing slash the path ["/"] is left as ["/"], which ends with ["/"]. *)
Lemma resolveRoute_root_path_keeps_slash :
  ~ (forall (E : Externals) (this : RoutingProxy) (route : RouteLocationRaw)
            (locale : option Locale) (path : string) (r : RouteLocation),
        let opts := getI18nRoutingOptions (proxy_router this) this in
        isRouteLocationPathRaw (normalizeRoute route) = true ->
        l_path (normalizeRoute route) = Value path ->
        resolve (proxy_router this) (normalizeRoute route) (o_strategy opts)
          (effectiveLocale this locale) = Normal r ->
        truthy (r_name r) = false ->
        exists localized,
          localizeRoute this route locale
            = Normal (with_path (Value localized) (normalizeRoute route))
          /\ JsString.endsWith "/" localized = o_trailingSlash opts).
Proof.
  intros Hall.
  destruct (Hall
    (Samples.externals (Samples.options NO_PREFIX false "" None)
       (Normal (Samples.unnamed "/")))
    (Samples.proxy (Samples.constRouter (Normal (Samples.unnamed "/"))) None)
    (RouteString "/") (Some "fr") "/" (Samples.unnamed "/")
    eq_refl eq_refl eq_refl eq_refl) as [localized [Hloc Hslash]].
  vm_compute in Hloc. injection Hloc as <-.
  vm_compute in Hslash. discriminate Hslash.
Qed.

Section FinalResolution.
Context `{Externals}.

(** C4.  When the final resolution of the localized descriptor returns a
    route with a non-empty name, [resolveRoute] returns that route.  When it
    returns a route whose name is missing or empty, [resolveRoute] resolves
    the caller's own, unlocalized route reference and returns what that
    yields, named or not. *)
Theorem resolveRoute_final_resolution (this : RoutingProxy)
    (route : RouteLocationRaw) (locale : option Locale)
    (localizedRoute : RouteLocationObject) (resolvedRoute : RouteLocation) :
  localizeRoute this route locale = Normal localizedRoute ->
  router_resolve (proxy_router this) (RouteObject localizedRoute)
    = Normal resolvedRoute ->
  (truthy (r_name resolvedRoute) = true ->
   resolveRoute this route locale = Normal (JsValue resolvedRoute))
  /\ (truthy (r_name resolvedRoute) = false ->
      forall fallback : RouteLocation,
        router_resolve (proxy_router this) route = Normal fallback ->
        resolveRoute this route locale = Normal (JsValue fallback)).
Proof.
  intros Hloc Hres. unfold resolveRoute. rewrite Hloc.
  cbn [mbind Completion_bind]. unfold finalResolve. rewrite Hres.
  split; intros Hname.
  - now rewrite Hname.
  - intros fallback Hfb. now rewrite Hname, Hfb.
Qed.

Lemma resolveRoute_catch (this : RoutingProxy) (route : RouteLocationRaw)
    (locale : option Locale) (localizedRoute : RouteLocationObject) (e : Thrown) :
  localizeRoute this route locale = Normal localizedRoute ->
  finalResolutionThrows this route localizedRoute e ->
  resolveRoute this route locale = catchNoMatch e.
Proof.
  intros Hloc Hthrow. unfold resolveRoute. rewrite Hloc.
  cbn [mbind Completion_bind]. unfold finalResolve.
  destruct Hthrow as [-> | (unnamed & -> & -> & ->)]; reflexivity.
Qed.

(** A thrown [null] makes the test of the [catch] clause itself fail. *)
Lemma resolveRoute_thrown_null (this : RoutingProxy) (route : RouteLocationRaw)
    (locale : option Locale) (localizedRoute : RouteLocationObject) :
  localizeRoute this route locale = Normal localizedRoute ->
  finalResolutionThrows this route localizedRoute ThrownNull ->
  resolveRoute this route locale = Throw TypeError.
Proof. intros Hloc Hthrow. now rewrite (resolveRoute_catch _ _ _ _ _ Hloc Hthrow). Qed.

(** C5.  When the final resolution throws a no-match error (an object whose
    [type] is 1), [resolveRoute] returns [null] and [localePath] on the same
    input returns the empty string. *)
Theorem resolveRoute_no_match (this : RoutingProxy) (route : RouteLocationRaw)
    (locale : option Locale) (localizedRoute : RouteLocationObject) :
  localizeRoute this route locale = Normal localizedRoute ->
  finalResolutionThrows this route localizedRoute (ThrownObject (Some 1%Z)) ->
  resolveRoute this route locale = Normal JsNull
  /\ localePath this route locale = Normal "".
Proof.
  intros Hloc Hthrow.
  pose proof (resolveRoute_catch _ _ _ _ _ Hloc Hthrow) as Hr.
  cbn in Hr. split; [exact Hr|].
  unfold localePath. now rewrite Hr.
Qed.

(** C6 (amended).  When the final resolution throws something that is not a
    no-match error and is not [null], namely an object other than [null]
    whose [type] is not 1, or a primitive value other than [null]
    ([undefined] included), [resolveRoute] catches it and returns
    [undefined]; nothing reaches the caller, [localePath] returns the empty
    string and [localeRoute] returns [undefined]. *)
Theorem resolveRoute_other_error (this : RoutingProxy) (route : RouteLocationRaw)
    (locale : option Locale) (localizedRoute : RouteLocationObject) (e : Thrown) :
  localizeRoute this route locale = Normal localizedRoute ->
  finalResolutionThrows this route localizedRoute e ->
  e <> ThrownObject (Some 1%Z) ->
  e <> ThrownNull ->
  resolveRoute this route locale = Normal JsUndefined
  /\ localePath this route locale = Normal ""
  /\ localeRoute this route locale = Normal None.
Proof.
  intros Hloc Hthrow Hnomatch Hnull.
  pose proof (resolveRoute_catch _ _ _ _ _ Hloc Hthrow) as Hr.
  assert (Hc : catchNoMatch e = Normal JsUndefined).
  { destruct e as [| |type]; [congruence | reflexivity |].
    unfold catchNoMatch. case_bool_decide; [congruence | reflexivity]. }
  rewrite Hc in Hr. split; [exact Hr|].
  unfold localePath, localeRoute. now rewrite Hr.
Qed.

End FinalResolution.

(** C4, on a named reference: the router knows ["about___fr"], which is
    returned; and when the router answers with an unnamed route, the answer
    to the caller's own reference is returned. *)
Lemma resolveRoute_final_resolution_about :
  @resolveRoute Samples.prefixEnv
    (Samples.proxyOf
       (Normal (Samples.named "about___fr" "/fr/about" ∅ (MetaPlain ∅))))
    (RouteString "about") (Some "fr")
  = Normal (JsValue (Samples.named "about___fr" "/fr/about" ∅ (MetaPlain ∅)))
  /\ @resolveRoute Samples.prefixEnv
       (Samples.proxyOf (Normal (Samples.unnamed "/nowhere")))
       (RouteString "nowhere") (Some "fr")
     = Normal (JsValue (Samples.unnamed "/nowhere")).
Proof.
  split.
  - apply (proj1 (@resolveRoute_final_resolution Samples.prefixEnv
                    (Samples.proxyOf
                       (Normal (Samples.named "about___fr" "/fr/about" ∅
                                  (MetaPlain ∅))))
                    (RouteString "about") (Some "fr") _ _ eq_refl eq_refl)
             eq_refl).
  - apply (proj2 (@resolveRoute_final_resolution Samples.prefixEnv
                    (Samples.proxyOf (Normal (Samples.unnamed "/nowhere")))
                    (RouteString "nowhere") (Some "fr") _ _ eq_refl eq_refl)
             eq_refl (Samples.unnamed "/nowhere") eq_refl).
Defined.

(** C5, on a router that knows no route at all. *)
Lemma resolveRoute_no_match_about :
  @resolveRoute Samples.prefixEnv
    (Samples.proxyOf (Throw (ThrownObject (Some 1%Z))))
    (RouteString "about") (Some "fr")
  = Normal JsNull
  /\ @localePath Samples.prefixEnv
       (Samples.proxyOf (Throw (ThrownObject (Some 1%Z))))
       (RouteString "about") (Some "fr")
     = Normal "".
Proof.
  apply (@resolveRoute_no_match Samples.prefixEnv
           (Samples.proxyOf (Throw (ThrownObject (Some 1%Z))))
           (RouteString "about") (Some "fr") _ eq_refl).
  left. reflexivity.
Defined.

(** C6, on a router that fails with an error of type 4. *)
Lemma resolveRoute_other_error_about :
  @resolveRoute Samples.prefixEnv
    (Samples.proxyOf (Throw (ThrownObject (Some 4%Z))))
    (RouteString "about") (Some "fr")
  = Normal JsUndefined.
Proof.
  apply (@resolveRoute_other_error Samples.prefixEnv
           (Samples.proxyOf (Throw (ThrownObject (Some 4%Z))))
           (RouteString "about") (Some "fr") _ (ThrownObject (Some 4%Z)) eq_refl).
  - left. reflexivity.
  - discriminate.
  - discriminate.
Defined.

(** C6, as stated, fails: an error of type 4 thrown by the final resolution
    does not reach the caller; [resolveRoute] returns [undefined]. *)
Lemma resolveRoute_swallows_other_errors :
  ~ (forall (E : Externals) (this : RoutingProxy) (route : RouteLocationRaw)
            (locale : option Locale) (localizedRoute : RouteLocationObject)
            (e : Thrown),
        localizeRoute this route locale = Normal localizedRoute ->
        router_resolve (proxy_router this) (RouteObject localizedRoute) = Throw e ->
        e <> ThrownObject (Some 1%Z) ->
        resolveRoute this route locale = Throw e).
Proof.
  intros Hall.
  specialize (Hall Samples.prefixEnv
    (Samples.proxyOf (Throw (ThrownObject (Some 4%Z))))
    (RouteString "about") (Some "fr") _ (ThrownObject (Some 4%Z))
    eq_refl eq_refl).
  assert (Hne : ThrownObject (Some 4%Z) <> ThrownObject (Some 1%Z)) by discriminate.
  specialize (Hall Hne). vm_compute in Hall. discriminate Hall.
Qed.

(** ** Route normalisation *)

Section Normalizer.
Context `{Externals}.
Import JsString Ufo.

Lemma span_append (p : ascii -> bool) (s : string) :
  fst (span p s) +:+ snd (span p s) = s.
Proof.
  induction s as [|a s IH]; [reflexivity|]. simpl.
  destruct (p a); [|reflexivity].
  destruct (span p s) as [h t]. simpl in *. rewrite append_cons. now f_equal.
Qed.

(** After a greedy run the rest is empty or starts with a rejected unit. *)
Lemma span_rest (p : ascii -> bool) (s : string) :
  match snd (span p s) with
  | EmptyString => True
  | String a _ => p a = false
  end.
Proof.
  induction s as [|a s IH]; [exact I|]. simpl.
  destruct (p a) eqn:Hp; [|exact Hp].
  destruct (span p s) as [h t]. exact IH.
Qed.

(** The three parts [parsePath] returns are consecutive pieces of its input;
    what may follow them starts with a line terminator inside the fragment. *)
Lemma parsePath_pieces (input : string) :
  exists tail : string,
    input = pathname (parsePath input) +:+ search (parsePath input)
            +:+ hash (parsePath input) +:+ tail.
Proof.
  unfold parsePath.
  pose proof (span_append
    (fun a => negb (Ascii.eqb a "#"%char || Ascii.eqb a "?"%char)) input) as Hp.
  pose proof (span_rest
    (fun a => negb (Ascii.eqb a "#"%char || Ascii.eqb a "?"%char)) input) as Hr.
  destruct (span _ input) as [p rest]. cbn [fst snd] in Hp, Hr.
  assert (Hfrag : forall r : string,
    match r with
    | EmptyString => True
    | String a _ => a = "#"%char
    end ->
    exists tail,
      r = match r with
          | String "#"%char r' =>
              String "#"%char
                (fst (span (fun a => negb (is_line_terminator a)) r'))
          | _ => EmptyString
          end +:+ tail).
  { intros [|a r'] Ha; [now exists ""|]. subst a.
    exists (snd (span (fun a => negb (is_line_terminator a)) r')).
    rewrite append_cons. f_equal. symmetry. apply span_append. }
  destruct rest as [|c rest].
  - exists "". cbn [pathname search hash].
    now rewrite !append_nil_l.
  - destruct (Ascii.eqb_spec c "?"%char) as [->|Hc].
    + pose proof (span_append (fun a => negb (Ascii.eqb a "#"%char)) rest) as Hq.
      pose proof (span_rest (fun a => negb (Ascii.eqb a "#"%char)) rest) as Hqr.
      destruct (span _ rest) as [h t]. cbn [fst snd] in Hq, Hqr.
      destruct (Hfrag t) as [tail Ht].
      { destruct t as [|a t']; [exact I|].
        apply negb_false_iff, Ascii.eqb_eq in Hqr. exact Hqr. }
      exists tail. cbn [pathname search hash].
      rewrite <- Ht, append_cons, Hq. now symmetry.
    + assert (c = "#"%char) as ->.
      { apply negb_false_iff, orb_true_iff in Hr as [Hr|Hr];
          [now apply Ascii.eqb_eq in Hr|].
        first [discriminate Hr | apply Ascii.eqb_eq in Hr; congruence]. }
      destruct (Hfrag (String "#" rest) eq_refl) as [tail Ht].
      exists tail. cbn [pathname search hash].
      rewrite append_nil_l, <- Ht. now symmetry.
Qed.

(** C7.  A string reference that begins with ["/"] becomes the descriptor
    with the path, the parsed query and the hash of the string, and nothing
    else: the three are consecutive pieces of the string, and the query is
    [parseQuery] of the search piece, a map from keys to a value or a list.
    Any other string becomes the descriptor that holds it as its name, and
    nothing else.  An object reference is returned as it is. *)
Theorem normalizeRoute_shapes :
  (forall rest : string,
      normalizeRoute (RouteString (String "/" rest))
      = {| l_path := Value (pathname (parsePath (String "/" rest)));
           l_query := Some (parseQuery (search (parsePath (String "/" rest))));
           l_hash := Some (hash (parsePath (String "/" rest)));
           l_name := Absent; l_params := None; l_state := None;
           l_fullPath := None; l_meta := None; l_matched := None;
           l_redirectedFrom := None |}
      /\ exists tail : string,
           String "/" rest
           = pathname (parsePath (String "/" rest))
             +:+ search (parsePath (String "/" rest))
             +:+ hash (parsePath (String "/" rest)) +:+ tail)
  /\ (forall s : string,
        String.prefix "/" s = false ->
        normalizeRoute (RouteString s)
        = {| l_name := Value s; l_path := Absent; l_params := None;
             l_query := None; l_hash := None; l_state := None;
             l_fullPath := None; l_meta := None; l_matched := None;
             l_redirectedFrom := None |})
  /\ (forall o : RouteLocationObject, normalizeRoute (RouteObject o) = o).
Proof.
  split; [|split].
  - intros rest. split; [reflexivity | apply parsePath_pieces].
  - intros s Hs. unfold normalizeRoute.
    destruct s as [|a s]; [reflexivity|].
    rewrite prefix_cons, prefix_nil in Hs.
    destruct (ascii_dec "/" a) as [<-|Hne]; [discriminate|].
    destruct a as [[] [] [] [] [] [] [] []]; try reflexivity. congruence.
  - reflexivity.
Qed.

End Normalizer.

(** C7 on three references: a path with query and hash, a route name, and
    an object. *)
Lemma normalizeRoute_shapes_examples :
  @normalizeRoute Samples.prefixEnv (RouteString "/about?x=1#top")
  = {| l_path := Value "/about"; l_query := Some ∅; l_hash := Some "#top";
       l_name := Absent; l_params := None; l_state := None;
       l_fullPath := None; l_meta := None; l_matched := None;
       l_redirectedFrom := None |}
  /\ @normalizeRoute Samples.prefixEnv (RouteString "about")
     = {| l_name := Value "about"; l_path := Absent; l_params := None;
          l_query := None; l_hash := None; l_state := None;
          l_fullPath := None; l_meta := None; l_matched := None;
          l_redirectedFrom := None |}
  /\ @normalizeRoute Samples.prefixEnv (RouteObject emptyLocation)
     = emptyLocation.
Proof.
  destruct (@normalizeRoute_shapes Samples.prefixEnv) as [Hpath [Hname Hobj]].
  split; [|split].
  - exact (proj1 (Hpath "about?x=1#top")).
  - exact (Hname "about" eq_refl).
  - exact (Hobj emptyLocation).
Defined.

(** ** Switching the locale of the current route *)

Section Switcher.
Context `{Externals}.

(** C8.  When the base name of the current route is [undefined] or empty,
    [switchLocalePath] returns the empty string, whatever the target
    locale. *)
Theorem switchLocalePath_without_base_name (this : RoutingProxy) (locale : Locale) :
  getRouteBaseName this (proxy_route this) = None
  \/ getRouteBaseName this (proxy_route this) = Some "" ->
  switchLocalePath this locale = Normal "".
Proof.
  intros Hname. unfold switchLocalePath.
  destruct Hname as [-> | ->]; reflexivity.
Qed.

Lemma switchLocalePath_named (this : RoutingProxy) (locale : Locale)
    (routeValue : RouteLocation) (name : string) :
  let opts := getI18nRoutingOptions (proxy_router this) this in
  proxy_route this = Some routeValue ->
  getRouteBaseName this (Some routeValue) = Some name ->
  name <> "" ->
  switchLocalePath this locale =
  (path ← localePath this
            (RouteObject (switchBaseRoute opts name routeValue locale))
            (Some locale);
   Normal (o_switchLocalePathIntercepter opts path locale)).
Proof.
  intros opts Hroute Hbase Hne. unfold switchLocalePath.
  rewrite Hroute, Hbase. cbn [truthy default].
  destruct (String.eqb_spec name ""); [contradiction|]. reflexivity.
Qed.

(** What [resolvedParams] computes, read off the options and the metadata
    record: the entry of the interceptor for the locale when the interceptor
    exists, its call returns a reference, the reference holds a record and
    the entry is an object; else the entry of the metadata record when it is
    an object; else the empty object. *)
Lemma resolvedParams_priority (opts : I18nRoutingOptions)
    (route : RouteLocation) (locale : Locale) :
  resolvedParams opts route locale =
  match o_dynamicParamsInterceptor opts with
  | Some (Some (Some value)) =>
      match value !! locale with
      | Some (DObject intercepted) => intercepted
      | _ =>
          match getLocalizableMetaFromDynamicParams route
                  (o_dynamicRouteParamsKey opts) !! locale with
          | Some (DObject p) => p
          | _ => ∅
          end
      end
  | _ =>
      match getLocalizableMetaFromDynamicParams route
              (o_dynamicRouteParamsKey opts) !! locale with
      | Some (DObject p) => p
      | _ => ∅
      end
  end.
Proof.
  unfold resolvedParams, langSwitchParamsIntercepted, langSwitchParams.
  destruct (o_dynamicParamsInterceptor opts) as [[[value|]|]|]; reflexivity.
Qed.

(** C9.  The parameters applied for the target locale are chosen with the
    priority: the entry for that locale of the record the configured
    [dynamicParamsInterceptor] supplies, if the interceptor is configured
    and the entry is present (neither [undefined] nor [null]); else the
    entry for that locale of the metadata-derived record; else the empty
    object.  The candidate route carries the base name and the current
    route's parameters overlaid with the chosen ones: a chosen parameter
    replaces the current one, every other current parameter is kept. *)
Theorem switchLocalePath_params (this : RoutingProxy) (locale : Locale)
    (routeValue : RouteLocation) (name : string) :
  let opts := getI18nRoutingOptions (proxy_router this) this in
  let fromMeta : RouteParams :=
    match getLocalizableMetaFromDynamicParams routeValue
            (o_dynamicRouteParamsKey opts) !! locale with
    | Some (DObject p) => p
    | _ => ∅
    end in
  let chosen : RouteParams :=
    match o_dynamicParamsInterceptor opts with
    | Some (Some (Some value)) =>
        match value !! locale with
        | Some (DObject intercepted) => intercepted
        | _ => fromMeta
        end
    | _ => fromMeta
    end in
  let candidate := switchBaseRoute opts name routeValue locale in
  proxy_route this = Some routeValue ->
  getRouteBaseName this (Some routeValue) = Some name ->
  name <> "" ->
  switchLocalePath this locale =
    (path ← localePath this (RouteObject candidate) (Some locale);
     Normal (o_switchLocalePathIntercepter opts path locale))
  /\ l_name candidate = Value name
  /\ exists params : RouteParams,
       l_params candidate = Some params
       /\ (forall k v, chosen !! k = Some v -> params !! k = Some v)
       /\ (forall k, chosen !! k = None -> params !! k = r_params routeValue !! k).
Proof.
  intros opts fromMeta chosen candidate Hroute Hbase Hne.
  split; [now apply switchLocalePath_named|]. split; [reflexivity|].
  exists (chosen ∪ r_params routeValue). split.
  - subst candidate. unfold switchBaseRoute.
    cbn [l_params with_params routeToObject default].
    now rewrite resolvedParams_priority.
  - split.
    + intros k v Hk. now apply lookup_union_Some_l.
    + intros k Hk. now apply lookup_union_r.
Qed.

(** C10.  When the configured [dynamicRouteParamsKey] is the default key,
    the metadata-derived record is empty for every route, whatever its
    [meta] holds, so no locale gets parameters from the metadata: the
    parameters applied are the interceptor's entry for the locale, if
    present, and otherwise none. *)
Theorem default_key_ignores_meta (opts : I18nRoutingOptions) :
  o_dynamicRouteParamsKey opts = DEFAULT_DYNAMIC_PARAMS_KEY ->
  (forall route : RouteLocation,
      getLocalizableMetaFromDynamicParams route (o_dynamicRouteParamsKey opts) = ∅)
  /\ (forall (route : RouteLocation) (locale : Locale),
        langSwitchParams opts route locale = ∅)
  /\ (forall (route : RouteLocation) (locale : Locale),
        resolvedParams opts route locale =
        match langSwitchParamsIntercepted opts locale with
        | Some (DObject intercepted) => intercepted
        | _ => ∅
        end)
  /\ (forall (route : RouteLocation) (locale : Locale) (name : string),
        langSwitchParamsIntercepted opts locale = None ->
        l_params (switchBaseRoute opts name route locale)
        = Some (r_params route)).
Proof.
  intros Hkey.
  assert (Hmeta : forall route,
    getLocalizableMetaFromDynamicParams route (o_dynamicRouteParamsKey opts) = ∅).
  { intros route. unfold getLocalizableMetaFromDynamicParams.
    rewrite Hkey, String.eqb_refl. reflexivity. }
  assert (Hlang : forall route locale, langSwitchParams opts route locale = ∅).
  { intros route locale. unfold langSwitchParams.
    rewrite Hmeta, lookup_empty. reflexivity. }
  assert (Hres : forall route locale,
    resolvedParams opts route locale =
    match langSwitchParamsIntercepted opts locale with
    | Some (DObject intercepted) => intercepted
    | _ => ∅
    end).
  { intros route locale. unfold resolvedParams. rewrite Hlang.
    destruct (langSwitchParamsIntercepted opts locale) as [[|p]|]; reflexivity. }
  repeat split; try assumption.
  intros route locale name Hnone. unfold switchBaseRoute.
  cbn [l_params with_params routeToObject default].
  rewrite Hres, Hnone. f_equal. apply (left_id_L ∅ (∪)).
Qed.

End Switcher.

(** C8 on a current route without a name and on one whose name starts with
    the separator, so that its base name is empty. *)
Lemma switchLocalePath_without_base_name_examples :
  @switchLocalePath Samples.prefixEnv
    (Samples.switchProxy (Samples.unnamed "/nowhere")) "fr" = Normal ""
  /\ @switchLocalePath Samples.prefixEnv
       (Samples.switchProxy (Samples.named "___en" "/en" ∅ (MetaPlain ∅))) "fr"
     = Normal "".
Proof.
  split.
  - apply (@switchLocalePath_without_base_name Samples.prefixEnv
             (Samples.switchProxy (Samples.unnamed "/nowhere")) "fr").
    left. reflexivity.
  - apply (@switchLocalePath_without_base_name Samples.prefixEnv
             (Samples.switchProxy (Samples.named "___en" "/en" ∅ (MetaPlain ∅)))
             "fr").
    right. reflexivity.
Defined.

(** C9 on the route ["post"] whose metadata holds [{fr: {slug: "bonjour"}}]
    under a key of its own.  Without an interceptor, switching to ["fr"]
    replaces [slug] by ["bonjour"] and keeps [id] (the scenario of the
    specification).  With an interceptor that supplies
    [{fr: {slug: "salut"}}], the interceptor wins over the metadata: [slug]
    becomes ["salut"], and [id] is kept. *)
Lemma switchLocalePath_params_bonjour :
  (exists params : RouteParams,
     l_params
       (@switchBaseRoute (Samples.switchEnv "i18nParams")
          (Samples.options PREFIX false "i18nParams" None) "post"
          (Samples.post "i18nParams") "fr")
     = Some params
     /\ params !! "slug" = Some (PString "bonjour")
     /\ params !! "id" = Some (PString "7"))
  /\ (exists params : RouteParams,
        l_params
          (@switchBaseRoute Samples.interceptedEnv
             (Samples.options PREFIX false "i18nParams" Samples.salutInterceptor)
             "post" (Samples.post "i18nParams") "fr")
        = Some params
        /\ params !! "slug" = Some (PString "salut")
        /\ params !! "id" = Some (PString "7")).
Proof.
  split.
  - destruct (@switchLocalePath_params (Samples.switchEnv "i18nParams")
                (Samples.switchProxy (Samples.post "i18nParams")) "fr"
                (Samples.post "i18nParams") "post" eq_refl eq_refl)
      as [_ [_ [params [Hparams [Hchosen Hkept]]]]]; [discriminate|].
    exists params. split; [exact Hparams|]. split.
    + apply Hchosen. vm_compute. reflexivity.
    + rewrite Hkept; vm_compute; reflexivity.
  - destruct (@switchLocalePath_params Samples.interceptedEnv
                (Samples.switchProxy (Samples.post "i18nParams")) "fr"
                (Samples.post "i18nParams") "post" eq_refl eq_refl)
      as [_ [_ [params [Hparams [Hchosen Hkept]]]]]; [discriminate|].
    exists params. split; [exact Hparams|]. split.
    + apply Hchosen. vm_compute. reflexivity.
    + rewrite Hkept; vm_compute; reflexivity.
Defined.

(** C10 on the same route with the metadata stored under the default key:
    nothing is taken from it. *)
Lemma default_key_ignores_meta_post :
  @getLocalizableMetaFromDynamicParams (Samples.switchEnv "") (Samples.post "") ""
  = ∅
  /\ l_params
       (@switchBaseRoute (Samples.switchEnv "")
          (Samples.options PREFIX false "" None) "post" (Samples.post "") "fr")
     = Some {[ "slug" := PString "hello"; "id" := PString "7" ]}.
Proof.
  destruct (@default_key_ignores_meta (Samples.switchEnv "")
              (Samples.options PREFIX false "" None) eq_refl)
    as [Hmeta [_ [_ Hparams]]].
  split.
  - exact (Hmeta (Samples.post "")).
  - exact (Hparams (Samples.post "") "fr" "post" eq_refl).
Defined.


(** * Further properties of the routing operations *)

(** ** Base names *)

Section BaseNameFacts.
Context `{Externals}.
Import JsString.

Lemma substring_prefix_split (n : nat) (s : string) :
  exists rest : string, s = substring 0 n s +:+ rest.
Proof.
  revert n. induction s as [|a s IH]; intros [|n]; simpl.
  - now exists "".
  - now exists "".
  - now exists (String a s).
  - destruct (IH n) as [rest Hrest]. exists rest.
    rewrite append_cons. now f_equal.
Qed.

Lemma indexOf_nil_nonempty (pat : string) : pat <> "" -> indexOf pat "" = None.
Proof. destruct pat; [congruence | reflexivity]. Qed.

(** The text before the first occurrence of a pattern holds no occurrence. *)
Lemma slice_before_first_occurrence (pat s : string) (i : nat) :
  pat <> "" -> indexOf pat s = Some i ->
  indexOf pat (substring 0 i s) = None.
Proof.
  intros Hpat. revert i. induction s as [|a s IH]; intros i;
    rewrite indexOf_unfold.
  - destruct (String.prefix pat "") eqn:Hp; [|discriminate].
    intros [= <-]. now apply indexOf_nil_nonempty.
  - destruct (String.prefix pat (String a s)) eqn:Hp.
    + intros [= <-]. simpl. now apply indexOf_nil_nonempty.
    + destruct (indexOf pat s) as [j|] eqn:Hj; [|discriminate].
      intros [= <-]. simpl substring. rewrite indexOf_unfold, (IH j eq_refl).
      destruct (String.prefix pat (String a (substring 0 j s))) eqn:Hq;
        [|reflexivity].
      destruct (substring_prefix_split j s) as [rest Hrest].
      apply (prefix_append_l _ _ rest) in Hq.
      rewrite append_cons, <- Hrest in Hq. congruence.
Qed.

Lemma split_head_spec (sep s b : string) :
  sep <> "" -> split_head sep s = Some b ->
  indexOf sep b = None /\ exists rest, s = b +:+ rest.
Proof.
  intros Hsep. unfold split_head. destruct sep as [|c sep']; [congruence|].
  destruct (indexOf (String c sep') s) as [i|] eqn:Hi; intros [= <-].
  - split; [now apply slice_before_first_occurrence|].
    apply substring_prefix_split.
  - split; [exact Hi|]. exists "". now rewrite append_nil_r.
Qed.

(** The route [getRouteBaseName] looks at: the given one, else the current
    one. *)
Lemma getRouteBaseName_current (this : RoutingProxy) :
  getRouteBaseName this None = getRouteBaseName this (proxy_route this).
Proof. unfold getRouteBaseName. now destruct (proxy_route this). Qed.

(** X1.  [getRouteBaseName] returns [undefined] exactly when there is no
    route to look at (none given and no current route) or the name of that
    route is missing or empty.  A named route always has a base name,
    whatever the separator is, the empty one included. *)
Theorem getRouteBaseName_undefined_iff (this : RoutingProxy)
    (givenRoute : option RouteLocation) :
  getRouteBaseName this givenRoute = None
  <-> match givenRoute with
      | Some r => truthy (r_name r) = false
      | None => match proxy_route this with
                | Some r => truthy (r_name r) = false
                | None => True
                end
      end.
Proof.
  assert (Hone : forall r,
    (if negb (truthy (r_name r)) then None
     else match r_name r with
          | Some name =>
              baseNameOf
                (o_routesNameSeparator
                   (getI18nRoutingOptions (proxy_router this) this)) name
          | None => None
          end) = None <-> truthy (r_name r) = false).
  { intros r. destruct (r_name r) as [[|a name]|]; cbn; try tauto.
    split; [|discriminate]. unfold baseNameOf, split_head, getRouteName.
    destruct (o_routesNameSeparator _) as [|c sep]; [discriminate|].
    destruct (indexOf _ _); discriminate. }
  unfold getRouteBaseName.
  destruct givenRoute as [r|]; [apply Hone|].
  destruct (proxy_route this) as [r|]; [apply Hone | tauto].
Qed.

(** X2.  With a non-empty separator, a base name returned by
    [getRouteBaseName] is the beginning of the route's name and does not
    contain the separator; taken as a route name, it is its own base name. *)
Theorem getRouteBaseName_no_separator (this : RoutingProxy)
    (givenRoute : option RouteLocation) (b : string) :
  let sep :=
    o_routesNameSeparator (getI18nRoutingOptions (proxy_router this) this) in
  sep <> "" ->
  getRouteBaseName this givenRoute = Some b ->
  includes sep b = false
  /\ baseNameOf sep b = Some b
  /\ exists (r : RouteLocation) (rest : string),
       (givenRoute = Some r \/ (givenRoute = None /\ proxy_route this = Some r))
       /\ r_name r = Some (b +:+ rest).
Proof.
  intros sep Hsep Hbase.
  assert (Hone : forall r,
    (if negb (truthy (r_name r)) then None
     else match r_name r with
          | Some name => baseNameOf sep name
          | None => None
          end) = Some b ->
    indexOf sep b = None /\ exists rest, r_name r = Some (b +:+ rest)).
  { intros r. destruct (truthy (r_name r)); [|discriminate]. cbn [negb].
    destruct (r_name r) as [name|]; [|discriminate].
    unfold baseNameOf, getRouteName. intros Hsplit.
    destruct (split_head_spec _ _ _ Hsep Hsplit) as [Hnone [rest ->]].
    split; [exact Hnone | now exists rest]. }
  assert (Hgoal : forall r,
    givenRoute = Some r \/ (givenRoute = None /\ proxy_route this = Some r) ->
    indexOf sep b = None /\ (exists rest, r_name r = Some (b +:+ rest)) ->
    includes sep b = false
    /\ baseNameOf sep b = Some b
    /\ exists (r : RouteLocation) (rest : string),
         (givenRoute = Some r \/ (givenRoute = None /\ proxy_route this = Some r))
         /\ r_name r = Some (b +:+ rest)).
  { intros r Hr [Hnone [rest Hrest]]. split; [|split].
    - unfold includes. now rewrite Hnone.
    - unfold baseNameOf, getRouteName, split_head.
      destruct sep; [congruence|]. now rewrite Hnone.
    - exists r, rest. now split. }
  unfold getRouteBaseName in Hbase. fold sep in Hbase.
  destruct givenRoute as [r|].
  - apply (Hgoal r); [now left | now apply Hone].
  - destruct (proxy_route this) as [r|] eqn:Hcur; [|discriminate].
    apply (Hgoal r); [right; now split | now apply Hone].
Qed.

End BaseNameFacts.

(** X2 on the current route ["post___en"] with the separator ["___"]. *)
Lemma getRouteBaseName_no_separator_post :
  @getRouteBaseName Samples.prefixEnv (Samples.switchProxy (Samples.post "k")) None
  = Some "post"
  /\ JsString.includes "___" "post" = false
  /\ @baseNameOf Samples.prefixEnv "___" "post" = Some "post".
Proof.
  split; [reflexivity|].
  destruct (@getRouteBaseName_no_separator Samples.prefixEnv
              (Samples.switchProxy (Samples.post "k")) None "post")
    as [Hinc [Hidem _]]; [discriminate | reflexivity |].
  split; [exact Hinc | exact Hidem].
Defined.

(** ** Which branch a route reference takes *)

Section LocalizationFacts.
Context `{Externals}.
Import JsString Ufo.

Lemma parsePath_pathname_slash (rest : string) :
  exists h : string, pathname (parsePath (String "/" rest)) = String "/" h.
Proof.
  unfold parsePath. cbn [span]. cbn [Ascii.eqb Bool.eqb orb negb].
  destruct (span _ rest) as [h t]. exists h.
  destruct t as [|c t']; [reflexivity|].
  destruct c as [[] [] [] [] [] [] [] []];
    cbn; try reflexivity; now destruct (span _ t').
Qed.

Lemma normalizeRoute_other_string (s : string) :
  String.prefix "/" s = false ->
  normalizeRoute (RouteString s) = with_name (Value s) emptyLocation.
Proof.
  intros Hs. unfold normalizeRoute.
  destruct s as [|a s]; [reflexivity|].
  rewrite prefix_cons, prefix_nil in Hs.
  destruct (ascii_dec "/" a) as [<-|Hne]; [discriminate|].
  destruct a as [[] [] [] [] [] [] [] []]; try reflexivity. congruence.
Qed.

(** X3.  A string reference that begins with ["/"] is always treated as a
    path: its descriptor has a non-empty path and no name, so it goes
    through the discovery resolution, also when the string is ["/"] alone or
    continues with ["?"] or ["#"].  Every other string, the empty one
    included, is treated as a route name and never reaches the discovery
    resolution. *)
Theorem string_reference_kind :
  (forall rest : string,
      isRouteLocationPathRaw (normalizeRoute (RouteString (String "/" rest)))
      = true)
  /\ (forall s : string,
        String.prefix "/" s = false ->
        isRouteLocationPathRaw (normalizeRoute (RouteString s)) = false).
Proof.
  split.
  - intros rest. unfold isRouteLocationPathRaw, normalizeRoute.
    cbn [l_path l_name has_field read_field].
    destruct (parsePath_pathname_slash rest) as [h ->]. reflexivity.
  - intros s Hs. now rewrite (normalizeRoute_other_string s Hs).
Qed.

(** The name handed to [getLocaleRouteName], and the encoded name, for the
    options and the effective locale of a call. *)
Lemma localizeRoute_name_branch (this : RoutingProxy) (route : RouteLocationRaw)
    (locale : option Locale) :
  let opts := getI18nRoutingOptions (proxy_router this) this in
  let o := normalizeRoute route in
  isRouteLocationPathRaw o = false ->
  localizeRoute this route locale =
  Normal
    (with_name
       (Value
          (getLocaleRouteName
             (if negb (truthy (read_field (l_name o))) && negb (has_field (l_path o))
              then getRouteBaseName this (proxy_route this)
              else read_field (l_name o))
             (effectiveLocale this locale) (o_defaultLocale opts)
             (o_strategy opts) (o_routesNameSeparator opts)
             (o_defaultLocaleRouteNameSuffix opts)))
       o).
Proof. intros opts o Hraw. unfold localizeRoute. fold opts o. now rewrite Hraw. Qed.

(** X4.  A reference with neither a usable name nor a [path] property (the
    empty string, or an object that has no [path] and whose name is missing
    or empty) stands for the current route: the name that is localized is
    the base name of the current route, and every other field of the
    reference is kept.  Nothing is thrown and the discovery resolution is
    not consulted. *)
Theorem localizeRoute_nameless_reference (this : RoutingProxy)
    (route : RouteLocationRaw) (locale : option Locale) :
  let opts := getI18nRoutingOptions (proxy_router this) this in
  let o := normalizeRoute route in
  truthy (read_field (l_name o)) = false ->
  has_field (l_path o) = false ->
  localizeRoute this route locale =
  Normal
    (with_name
       (Value
          (getLocaleRouteName (getRouteBaseName this (proxy_route this))
             (effectiveLocale this locale) (o_defaultLocale opts)
             (o_strategy opts) (o_routesNameSeparator opts)
             (o_defaultLocaleRouteNameSuffix opts)))
       o).
Proof.
  intros opts o Hname Hpath.
  rewrite localizeRoute_name_branch.
  - fold o. now rewrite Hname, Hpath.
  - unfold isRouteLocationPathRaw. fold o. now rewrite Hpath.
Qed.

(** X5.  A reference object with a non-empty name is localized by name
    only: the name is replaced by its localized form and every other field
    is kept as given.  A path that the object also carries is neither
    prefixed nor normalised, and the discovery resolution is not
    consulted. *)
Theorem localizeRoute_named_reference (this : RoutingProxy)
    (o : RouteLocationObject) (locale : option Locale) (name : string) :
  let opts := getI18nRoutingOptions (proxy_router this) this in
  l_name o = Value name ->
  name <> "" ->
  localizeRoute this (RouteObject o) locale =
  Normal
    (with_name
       (Value
          (getLocaleRouteName (Some name)
             (effectiveLocale this locale) (o_defaultLocale opts)
             (o_strategy opts) (o_routesNameSeparator opts)
             (o_defaultLocaleRouteNameSuffix opts)))
       o).
Proof.
  intros opts Hname Hne.
  rewrite localizeRoute_name_branch.
  - cbn [normalizeRoute]. rewrite Hname. cbn [read_field truthy].
    destruct (String.eqb_spec name ""); [contradiction | reflexivity].
  - unfold isRouteLocationPathRaw. cbn [normalizeRoute]. rewrite Hname.
    cbn [has_field negb]. now rewrite andb_false_r.
Qed.

(** X6.  When the discovery resolution of a path-based reference returns a
    route that has a base name, the descriptor is rebuilt around the
    localized form of that base name: params, query, hash and state are
    those of the discovered route, and nothing of the reference itself (its
    path, its own query and hash) is kept. *)
Theorem localizeRoute_discovered_name (this : RoutingProxy)
    (route : RouteLocationRaw) (locale : option Locale)
    (r : RouteLocation) (b : string) :
  let opts := getI18nRoutingOptions (proxy_router this) this in
  let _locale := effectiveLocale this locale in
  isRouteLocationPathRaw (normalizeRoute route) = true ->
  resolve (proxy_router this) (normalizeRoute route) (o_strategy opts) _locale
    = Normal r ->
  getRouteBaseName this (Some r) = Some b ->
  localizeRoute this route locale =
  Normal
    {| l_name :=
         Value (getLocaleRouteName (Some b) _locale (o_defaultLocale opts)
                  (o_strategy opts) (o_routesNameSeparator opts)
                  (o_defaultLocaleRouteNameSuffix opts));
       l_params := Some (r_params r);
       l_query := Some (r_query r);
       l_hash := Some (r_hash r);
       l_state := r_state r;
       l_path := Absent; l_fullPath := None; l_meta := None;
       l_matched := None; l_redirectedFrom := None |}.
Proof.
  intros opts _locale Hraw Hres Hbase.
  unfold localizeRoute. fold opts _locale. now rewrite Hraw, Hres, Hbase.
Qed.

(** X7.  When the discovery resolution of a path-based reference throws,
    the error is dropped and the current route decides what happens.  If
    the current route has no base name, the path is localized as for an
    unmatched path (prefix policy, then trailing slash).  If it has one,
    [resolveRoute] raises a [TypeError] before the final resolution is
    tried. *)
Theorem resolveRoute_discovery_throws (this : RoutingProxy)
    (route : RouteLocationRaw) (locale : option Locale) (path : string)
    (e : Thrown) :
  let opts := getI18nRoutingOptions (proxy_router this) this in
  let _locale := effectiveLocale this locale in
  isRouteLocationPathRaw (normalizeRoute route) = true ->
  l_path (normalizeRoute route) = Value path ->
  resolve (proxy_router this) (normalizeRoute route) (o_strategy opts) _locale
    = Throw e ->
  (getRouteBaseName this (proxy_route this) = None ->
   localizeRoute this route locale =
   Normal (with_path (Value (localizedPath opts _locale path))
             (normalizeRoute route)))
  /\ (forall b : string,
        getRouteBaseName this (proxy_route this) = Some b ->
        resolveRoute this route locale = Throw TypeError).
Proof.
  intros opts _locale Hraw Hpath Hres. split.
  - intros Hnone. unfold localizeRoute. fold opts _locale.
    rewrite Hraw, Hres, getRouteBaseName_current, Hnone, Hpath. reflexivity.
  - intros b Hb. now apply (localizeRoute_discovery_throws this route locale e b).
Qed.

End LocalizationFacts.

(** X4 on the empty string, with the post as current route. *)
Lemma localizeRoute_nameless_reference_empty_string :
  @localizeRoute Samples.prefixEnv (Samples.switchProxy (Samples.post "k"))
    (RouteString "") (Some "fr")
  = Normal (with_name (Value "post___fr") emptyLocation).
Proof.
  exact (@localizeRoute_nameless_reference Samples.prefixEnv
           (Samples.switchProxy (Samples.post "k")) (RouteString "") (Some "fr")
           eq_refl eq_refl).
Defined.

(** X5 on [{ name: "about", path: "/x/" }]: the path stays ["/x/"]. *)
Lemma localizeRoute_named_reference_with_path :
  @localizeRoute Samples.prefixEnv (Samples.proxyOf (Throw ThrownPrimitive))
    (RouteObject Samples.aboutWithPath) (Some "fr")
  = Normal (with_path (Value "/x/") (with_name (Value "about___fr") emptyLocation)).
Proof.
  apply (@localizeRoute_named_reference Samples.prefixEnv
           (Samples.proxyOf (Throw ThrownPrimitive)) Samples.aboutWithPath
           (Some "fr") "about" eq_refl).
  discriminate.
Defined.

(** X6 on ["/about?x=1#top"]: the hash of the reference is not kept. *)
Lemma localizeRoute_discovered_name_about :
  @localizeRoute Samples.discoveryEnv (Samples.proxyOf (Throw ThrownPrimitive))
    (RouteString "/about?x=1#top") (Some "fr")
  = Normal
      {| l_name := Value "about___fr"; l_params := Some ∅; l_query := Some ∅;
         l_hash := Some ""; l_state := None; l_path := Absent;
         l_fullPath := None; l_meta := None; l_matched := None;
         l_redirectedFrom := None |}.
Proof.
  exact (@localizeRoute_discovered_name Samples.discoveryEnv
           (Samples.proxyOf (Throw ThrownPrimitive))
           (RouteString "/about?x=1#top") (Some "fr")
           (Samples.named "about___en" "/about" ∅ (MetaPlain ∅)) "about"
           eq_refl eq_refl eq_refl).
Defined.

(** X7 with a failing discovery resolution: without a current route the
    path is prefixed; with the post as current route a [TypeError] is
    raised. *)
Lemma resolveRoute_discovery_throws_examples :
  @localizeRoute Samples.prefixEnv (Samples.proxyOf (Throw ThrownPrimitive))
    (RouteString "/about") (Some "fr")
  = Normal (with_path (Value "/fr/about")
              (@normalizeRoute Samples.prefixEnv (RouteString "/about")))
  /\ @resolveRoute Samples.prefixEnv (Samples.switchProxy (Samples.post "k"))
       (RouteString "/about") (Some "fr")
     = Throw TypeError.
Proof.
  split.
  - exact (proj1 (@resolveRoute_discovery_throws Samples.prefixEnv
                    (Samples.proxyOf (Throw ThrownPrimitive))
                    (RouteString "/about") (Some "fr") "/about" ThrownPrimitive
                    eq_refl eq_refl eq_refl) eq_refl).
  - exact (proj2 (@resolveRoute_discovery_throws Samples.prefixEnv
                    (Samples.switchProxy (Samples.post "k"))
                    (RouteString "/about") (Some "fr") "/about" ThrownPrimitive
                    eq_refl eq_refl eq_refl) "post" eq_refl).
Defined.

(** ** What [resolveRoute] can return and throw *)

Section ResolverOutcomes.
Context `{Externals}.

Lemma finalResolve_inv (this : RoutingProxy) (localizedRoute : RouteLocationObject)
    (route : RouteLocationRaw) :
  (exists r, router_resolve (proxy_router this) (RouteObject localizedRoute)
               = Normal r
             /\ truthy (r_name r) = true
             /\ finalResolve (proxy_router this) localizedRoute route
                = Normal (JsValue r))
  \/ (exists u r, router_resolve (proxy_router this) (RouteObject localizedRoute)
                    = Normal u
                  /\ truthy (r_name u) = false
                  /\ router_resolve (proxy_router this) route = Normal r
                  /\ finalResolve (proxy_router this) localizedRoute route
                     = Normal (JsValue r))
  \/ (exists e, finalResolutionThrows this route localizedRoute e
                /\ finalResolve (proxy_router this) localizedRoute route
                   = catchNoMatch e).
Proof.
  unfold finalResolve, finalResolutionThrows.
  destruct (router_resolve (proxy_router this) (RouteObject localizedRoute))
    as [u|e] eqn:Hfirst.
  - destruct (truthy (r_name u)) eqn:Hname.
    + left. now exists u.
    + destruct (router_resolve (proxy_router this) route) as [r|e] eqn:Hretry.
      * right. left. now exists u, r.
      * right. right. exists e. split; [|reflexivity].
        right. now exists u.
  - right. right. exists e. split; [now left | reflexivity].
Qed.

Lemma localizeRoute_throw_inv (this : RoutingProxy) (route : RouteLocationRaw)
    (locale : option Locale) (e : Thrown) :
  localizeRoute this route locale = Throw e ->
  e = TypeError
  /\ isRouteLocationPathRaw (normalizeRoute route) = true
  /\ (exists e', resolve (proxy_router this) (normalizeRoute route)
                   (o_strategy (getI18nRoutingOptions (proxy_router this) this))
                   (effectiveLocale this locale) = Throw e')
  /\ exists b, getRouteBaseName this (proxy_route this) = Some b.
Proof.
  unfold localizeRoute.
  destruct (isRouteLocationPathRaw (normalizeRoute route)) eqn:Hraw;
    [|discriminate].
  destruct (resolve _ _ _ _) as [r|e'] eqn:Hres.
  - destruct (getRouteBaseName this (Some r)); discriminate.
  - rewrite getRouteBaseName_current.
    destruct (getRouteBaseName this (proxy_route this)) as [b|] eqn:Hb;
      [|discriminate].
    intros [= <-]. repeat split; [now exists e' | now exists b].
Qed.

Lemma catchNoMatch_throw_inv (e e' : Thrown) :
  catchNoMatch e = Throw e' -> e = ThrownNull /\ e' = TypeError.
Proof.
  destruct e as [| |type]; cbn; [now intros [= <-] | discriminate |].
  case_bool_decide; discriminate.
Qed.

Lemma catchNoMatch_null_inv (e : Thrown) :
  catchNoMatch e = Normal JsNull -> e = ThrownObject (Some 1%Z).
Proof.
  destruct e as [| |type]; cbn; try discriminate.
  case_bool_decide; [congruence | discriminate].
Qed.

Lemma catchNoMatch_undefined_inv (e : Thrown) :
  catchNoMatch e = Normal JsUndefined ->
  e <> ThrownObject (Some 1%Z) /\ e <> ThrownNull.
Proof.
  destruct e as [| |type]; cbn; try discriminate.
  - intros _. split; discriminate.
  - case_bool_decide; [discriminate|]. intros _. split; congruence.
Qed.

Lemma catchNoMatch_value_inv (e : Thrown) (r : RouteLocation) :
  catchNoMatch e <> Normal (JsValue r).
Proof. destruct e as [| |type]; cbn; try discriminate. case_bool_decide; discriminate. Qed.

Lemma resolveRoute_localized (this : RoutingProxy) (route : RouteLocationRaw)
    (locale : option Locale) (localizedRoute : RouteLocationObject) :
  localizeRoute this route locale = Normal localizedRoute ->
  resolveRoute this route locale
  = finalResolve (proxy_router this) localizedRoute route.
Proof. intros Hloc. unfold resolveRoute. now rewrite Hloc. Qed.

(** X8.  The only exception [resolveRoute] raises is a [TypeError] of its
    own making, and it has two causes: the discovery resolution threw while
    the current route has a base name, or the final resolution threw
    [null].  No error thrown by the router or by the discovery resolution
    reaches the caller as it is. *)
Theorem resolveRoute_throws_only_TypeError (this : RoutingProxy)
    (route : RouteLocationRaw) (locale : option Locale) (e : Thrown) :
  resolveRoute this route locale = Throw e ->
  e = TypeError
  /\ ((isRouteLocationPathRaw (normalizeRoute route) = true
       /\ (exists e', resolve (proxy_router this) (normalizeRoute route)
                        (o_strategy (getI18nRoutingOptions (proxy_router this) this))
                        (effectiveLocale this locale) = Throw e')
       /\ exists b, getRouteBaseName this (proxy_route this) = Some b)
      \/ exists localizedRoute,
           localizeRoute this route locale = Normal localizedRoute
           /\ finalResolutionThrows this route localizedRoute ThrownNull).
Proof.
  intros Hthrow.
  destruct (localizeRoute this route locale) as [lr|e0] eqn:Hloc.
  - rewrite (resolveRoute_localized _ _ _ _ Hloc) in Hthrow.
    destruct (finalResolve_inv this lr route)
      as [(r & _ & _ & Hr) | [(u & r & _ & _ & _ & Hr) | (e1 & He1 & Hr)]];
      rewrite Hr in Hthrow; try discriminate.
    apply catchNoMatch_throw_inv in Hthrow as [-> ->].
    split; [reflexivity|]. right. now exists lr.
  - unfold resolveRoute in Hthrow. rewrite Hloc in Hthrow.
    cbn in Hthrow. injection Hthrow as <-.
    apply localizeRoute_throw_inv in Hloc as (-> & Hraw & Hres & Hb).
    split; [reflexivity|]. now left.
Qed.

(** X9.  A route returned by [resolveRoute] is always an answer of the
    router: either its answer to the localized descriptor, which then has a
    non-empty name, or, after an answer without a name, its answer to the
    reference as the caller gave it.  An unnamed result is therefore always
    the router's answer to the original reference. *)
Theorem resolveRoute_returns_router_answer (this : RoutingProxy)
    (route : RouteLocationRaw) (locale : option Locale) (r : RouteLocation) :
  resolveRoute this route locale = Normal (JsValue r) ->
  exists localizedRoute,
    localizeRoute this route locale = Normal localizedRoute
    /\ ((router_resolve (proxy_router this) (RouteObject localizedRoute) = Normal r
         /\ truthy (r_name r) = true)
        \/ (router_resolve (proxy_router this) route = Normal r
            /\ exists u, router_resolve (proxy_router this)
                           (RouteObject localizedRoute) = Normal u
                         /\ truthy (r_name u) = false)).
Proof.
  intros Hret.
  destruct (localizeRoute this route locale) as [lr|e0] eqn:Hloc.
  - rewrite (resolveRoute_localized _ _ _ _ Hloc) in Hret. exists lr.
    split; [reflexivity|].
    destruct (finalResolve_inv this lr route)
      as [(r1 & H1 & Hn & Hr) | [(u & r1 & H1 & Hn & H2 & Hr) | (e1 & He1 & Hr)]];
      rewrite Hr in Hret.
    + injection Hret as <-. now left.
    + injection Hret as <-. right. split; [exact H2 | now exists u].
    + now apply catchNoMatch_value_inv in Hret.
  - unfold resolveRoute in Hret. rewrite Hloc in Hret. discriminate Hret.
Qed.

(** X10.  [resolveRoute] returns [null] exactly when the final resolution
    ends with a no-match error (an object whose [type] is 1), and
    [undefined] exactly when it ends with another error that is not [null].
    Neither value is ever returned after a successful resolution. *)
Theorem resolveRoute_null_iff_no_match (this : RoutingProxy)
    (route : RouteLocationRaw) (locale : option Locale) :
  (resolveRoute this route locale = Normal JsNull
   <-> exists localizedRoute,
         localizeRoute this route locale = Normal localizedRoute
         /\ finalResolutionThrows this route localizedRoute
              (ThrownObject (Some 1%Z)))
  /\ (resolveRoute this route locale = Normal JsUndefined
      <-> exists localizedRoute e,
            localizeRoute this route locale = Normal localizedRoute
            /\ finalResolutionThrows this route localizedRoute e
            /\ e <> ThrownObject (Some 1%Z) /\ e <> ThrownNull).
Proof.
  split; split.
  - intros Hret.
    destruct (localizeRoute this route locale) as [lr|e0] eqn:Hloc.
    + rewrite (resolveRoute_localized _ _ _ _ Hloc) in Hret. exists lr.
      split; [reflexivity|].
      destruct (finalResolve_inv this lr route)
        as [(r1 & _ & _ & Hr) | [(u & r1 & _ & _ & _ & Hr) | (e1 & He1 & Hr)]];
        rewrite Hr in Hret; try discriminate.
      now apply catchNoMatch_null_inv in Hret as ->.
    + unfold resolveRoute in Hret. rewrite Hloc in Hret. discriminate Hret.
  - intros (lr & Hloc & Hthrow).
    now rewrite (resolveRoute_catch _ _ _ _ _ Hloc Hthrow).
  - intros Hret.
    destruct (localizeRoute this route locale) as [lr|e0] eqn:Hloc.
    + rewrite (resolveRoute_localized _ _ _ _ Hloc) in Hret.
      destruct (finalResolve_inv this lr route)
        as [(r1 & _ & _ & Hr) | [(u & r1 & _ & _ & _ & Hr) | (e1 & He1 & Hr)]];
        rewrite Hr in Hret; try discriminate.
      exists lr, e1. split; [reflexivity|]. split; [exact He1|].
      now apply catchNoMatch_undefined_inv.
    + unfold resolveRoute in Hret. rewrite Hloc in Hret. discriminate Hret.
  - intros (lr & e & Hloc & Hthrow & Hnm & Hnull).
    rewrite (resolveRoute_catch _ _ _ _ _ Hloc Hthrow).
    destruct e as [| |type]; [congruence | reflexivity |].
    unfold catchNoMatch. case_bool_decide; [congruence | reflexivity].
Qed.

End ResolverOutcomes.

(** X8 on a router that throws [null]: the [TypeError] comes from the
    final resolution. *)
Lemma resolveRoute_throws_only_TypeError_null :
  @resolveRoute Samples.prefixEnv (Samples.proxyOf (Throw ThrownNull))
    (RouteString "about") (Some "fr") = Throw TypeError
  /\ exists localizedRoute,
       @localizeRoute Samples.prefixEnv (Samples.proxyOf (Throw ThrownNull))
         (RouteString "about") (Some "fr") = Normal localizedRoute
       /\ @finalResolutionThrows (Samples.proxyOf (Throw ThrownNull))
            (RouteString "about") localizedRoute ThrownNull.
Proof.
  split; [reflexivity|].
  destruct (@resolveRoute_throws_only_TypeError Samples.prefixEnv
              (Samples.proxyOf (Throw ThrownNull))
              (RouteString "about") (Some "fr") TypeError eq_refl)
    as [_ [[Hraw _] | Hfinal]]; [discriminate Hraw | exact Hfinal].
Defined.

(** X9 on a router that answers without a name: the result is its answer
    to the reference ["nowhere"]. *)
Lemma resolveRoute_returns_router_answer_nowhere :
  exists localizedRoute,
    @localizeRoute Samples.prefixEnv
      (Samples.proxyOf (Normal (Samples.unnamed "/nowhere")))
      (RouteString "nowhere") (Some "fr") = Normal localizedRoute
    /\ l_name localizedRoute = Value "nowhere___fr"
    /\ router_resolve (Samples.constRouter (Normal (Samples.unnamed "/nowhere")))
         (RouteString "nowhere") = Normal (Samples.unnamed "/nowhere").
Proof.
  destruct (@resolveRoute_returns_router_answer Samples.prefixEnv
              (Samples.proxyOf (Normal (Samples.unnamed "/nowhere")))
              (RouteString "nowhere") (Some "fr") (Samples.unnamed "/nowhere")
              eq_refl) as [lr [Hloc _]].
  exists lr. split; [exact Hloc|]. split; [|reflexivity].
  vm_compute in Hloc. injection Hloc as <-. reflexivity.
Defined.

(** ** The operations derived from [resolveRoute] *)

Section DerivedOperations.
Context `{Externals}.

(** X11.  [localeLocation] and [localeRoute] return the same value;
    [localePath] is the full path of what [localeRoute] returns (that of
    [redirectedFrom] when it is non-empty) and the empty string when
    [localeRoute] returns [undefined]; [localeRoute] returns [undefined]
    exactly when [resolveRoute] returns [null] or [undefined], and throws
    exactly what [resolveRoute] throws. *)
Theorem derived_operations_agree (this : RoutingProxy) (route : RouteLocationRaw)
    (locale : option Locale) :
  localeLocation this route locale = localeRoute this route locale
  /\ localePath this route locale
     = (r ← localeRoute this route locale;
        Normal match r with
               | Some r => if truthy (r_redirectedFrom r)
                           then default "" (r_redirectedFrom r)
                           else r_fullPath r
               | None => ""
               end)
  /\ (localeRoute this route locale = Normal None
      <-> resolveRoute this route locale = Normal JsNull
          \/ resolveRoute this route locale = Normal JsUndefined)
  /\ (forall e, localeRoute this route locale = Throw e
                <-> resolveRoute this route locale = Throw e).
Proof.
  unfold localeLocation, localeRoute, localePath.
  destruct (resolveRoute this route locale) as [[| |r]|e0];
    cbn [mbind Completion_bind];
    (split; [reflexivity|]); (split; [reflexivity|]); split.
  - split; [now left | reflexivity].
  - intros e1. split; discriminate.
  - split; [now right | reflexivity].
  - intros e1. split; discriminate.
  - split; [discriminate | intros [|]; discriminate].
  - intros e1. split; discriminate.
  - split; [discriminate | intros [|]; discriminate].
  - intros e1. split; intros [= <-]; reflexivity.
Qed.

(** X12.  An empty string given as locale counts as no locale: the three
    operations then use the current locale, which is also what passing the
    current locale itself gives. *)
Theorem empty_locale_is_current_locale (this : RoutingProxy)
    (route : RouteLocationRaw) :
  resolveRoute this route (Some "") = resolveRoute this route None
  /\ localePath this route (Some "") = localePath this route None
  /\ localeRoute this route (Some "") = localeRoute this route None
  /\ resolveRoute this route None
     = resolveRoute this route (Some (proxy_locale this)).
Proof.
  split; [reflexivity|]. split; [reflexivity|]. split; [reflexivity|].
  unfold resolveRoute, localizeRoute, effectiveLocale. cbn [truthy default].
  now destruct (String.eqb (proxy_locale this) "").
Qed.

End DerivedOperations.

(** ** More on switching the locale *)

Section SwitcherFacts.
Context `{Externals}.

(** The full path [localePath] takes from a result of [resolveRoute]. *)
Lemma localePath_localized (this : RoutingProxy) (route : RouteLocationRaw)
    (locale : option Locale) (localizedRoute : RouteLocationObject) :
  localizeRoute this route locale = Normal localizedRoute ->
  localePath this route locale =
  (r ← finalResolve (proxy_router this) localizedRoute route;
   Normal match r with
          | JsValue r => if truthy (r_redirectedFrom r)
                         then default "" (r_redirectedFrom r)
                         else r_fullPath r
          | _ => ""
          end).
Proof.
  intros Hloc. unfold localePath.
  now rewrite (resolveRoute_localized _ _ _ _ Hloc).
Qed.

Lemma switchBaseRoute_localized (this : RoutingProxy) (locale : Locale)
    (routeValue : RouteLocation) (name : string) :
  let opts := getI18nRoutingOptions (proxy_router this) this in
  let candidate := switchBaseRoute opts name routeValue locale in
  name <> "" ->
  localizeRoute this (RouteObject candidate) (Some locale) =
  Normal
    (with_name
       (Value
          (getLocaleRouteName (Some name)
             (effectiveLocale this (Some locale)) (o_defaultLocale opts)
             (o_strategy opts) (o_routesNameSeparator opts)
             (o_defaultLocaleRouteNameSuffix opts)))
       candidate).
Proof.
  intros opts candidate Hne.
  rewrite localizeRoute_name_branch;
    [|unfold isRouteLocationPathRaw; cbn [normalizeRoute];
      change (has_field (l_name (switchBaseRoute
                (getI18nRoutingOptions (proxy_router this) this) name
                routeValue locale))) with true;
      apply andb_false_r].
  cbn [normalizeRoute]. fold opts candidate.
  change (read_field (l_name candidate)) with (Some name).
  cbn [truthy]. destruct (String.eqb_spec name ""); [contradiction | reflexivity].
Qed.

(** X13.  [switchLocalePath] always resolves its candidate by name.  The
    candidate carries the base name of the current route, so it takes the
    name branch of [resolveRoute]: the discovery resolution is never
    consulted, the localization cannot throw, the path and the params of
    the candidate are handed to the router as they are, and the result is
    the intercepter applied to the full path the final resolution gives. *)
Theorem switchLocalePath_resolves_by_name (this : RoutingProxy) (locale : Locale)
    (routeValue : RouteLocation) (name : string) :
  let opts := getI18nRoutingOptions (proxy_router this) this in
  let candidate := switchBaseRoute opts name routeValue locale in
  let localized :=
    with_name
      (Value
         (getLocaleRouteName (Some name)
            (effectiveLocale this (Some locale)) (o_defaultLocale opts)
            (o_strategy opts) (o_routesNameSeparator opts)
            (o_defaultLocaleRouteNameSuffix opts)))
      candidate in
  proxy_route this = Some routeValue ->
  getRouteBaseName this (Some routeValue) = Some name ->
  name <> "" ->
  localizeRoute this (RouteObject candidate) (Some locale) = Normal localized
  /\ l_path localized = l_path candidate
  /\ l_params localized = l_params candidate
  /\ switchLocalePath this locale =
     (r ← finalResolve (proxy_router this) localized (RouteObject candidate);
      Normal
        (o_switchLocalePathIntercepter opts
           match r with
           | JsValue r => if truthy (r_redirectedFrom r)
                          then default "" (r_redirectedFrom r)
                          else r_fullPath r
           | _ => ""
           end locale)).
Proof.
  intros opts candidate localized Hroute Hbase Hne.
  pose proof (switchBaseRoute_localized this locale routeValue name Hne) as Hloc.
  fold opts candidate localized in Hloc.
  split; [exact Hloc|]. split; [reflexivity|]. split; [reflexivity|].
  rewrite (switchLocalePath_named this locale routeValue name Hroute Hbase Hne).
  fold opts candidate. rewrite (localePath_localized _ _ _ _ Hloc).
  now destruct (finalResolve (proxy_router this) localized (RouteObject candidate)).
Qed.


(** X15.  Parameters taken from the metadata of a route always come from an
    object stored for the locale in the record that [meta] holds, directly
    or behind a reference, under the configured key, and that key is not the
    default key.  In every other situation (default key, missing key, falsy
    entry, missing or [null] entry for the locale) the metadata contributes
    the empty object. *)
Theorem langSwitchParams_source (opts : I18nRoutingOptions)
    (route : RouteLocation) (locale : Locale) :
  langSwitchParams opts route locale <> ∅ ->
  o_dynamicRouteParamsKey opts <> DEFAULT_DYNAMIC_PARAMS_KEY
  /\ exists (m : gmap string MetaEntry) (record : LocaleParams),
       (r_meta route = MetaPlain m \/ r_meta route = MetaRef m)
       /\ m !! o_dynamicRouteParamsKey opts = Some (MRecord record)
       /\ record !! locale = Some (DObject (langSwitchParams opts route locale)).
Proof.
  unfold langSwitchParams, getLocalizableMetaFromDynamicParams.
  destruct (String.eqb_spec (o_dynamicRouteParamsKey opts)
              DEFAULT_DYNAMIC_PARAMS_KEY) as [Hkey|Hkey].
  { rewrite lookup_empty. congruence. }
  intros Hne. split; [exact Hkey|].
  assert (Hmap : forall m : gmap string MetaEntry,
    match meta_or_default (m !! o_dynamicRouteParamsKey opts) !! locale with
    | Some (DObject p) => p
    | _ => ∅
    end <> ∅ ->
    exists record : LocaleParams,
      m !! o_dynamicRouteParamsKey opts = Some (MRecord record)
      /\ record !! locale
         = Some (DObject
                   match meta_or_default (m !! o_dynamicRouteParamsKey opts)
                         !! locale with
                   | Some (DObject p) => p
                   | _ => ∅
                   end)).
  { intros m. destruct (m !! o_dynamicRouteParamsKey opts) as [[|record]|];
      cbn [meta_or_default]; rewrite ?lookup_empty; try congruence.
    intros Hrec. exists record. split; [reflexivity|].
    destruct (record !! locale) as [[|p]|]; congruence. }
  destruct (r_meta route) as [m|m] eqn:Hmeta.
  - destruct (Hmap m Hne) as [record Hrec]. exists m, record. split; [now left|].
    exact Hrec.
  - destruct (Hmap m Hne) as [record Hrec]. exists m, record. split; [now right|].
    exact Hrec.
Qed.

(** X16.  An entry of the interceptor that is an object wins even when it
    is empty: the candidate then carries the parameters of the current
    route unchanged, whatever the metadata holds.  An entry that is [null]
    counts as missing and the metadata is used. *)
Theorem interceptor_entry_precedence (opts : I18nRoutingOptions)
    (route : RouteLocation) (locale : Locale) (name : string) :
  (langSwitchParamsIntercepted opts locale = Some (DObject ∅) ->
   l_params (switchBaseRoute opts name route locale) = Some (r_params route))
  /\ (langSwitchParamsIntercepted opts locale = Some DNull ->
      resolvedParams opts route locale = langSwitchParams opts route locale).
Proof.
  split; intros Hint.
  - unfold switchBaseRoute, resolvedParams. rewrite Hint.
    cbn [l_params with_params routeToObject default]. f_equal.
    apply (left_id_L ∅ (∪)).
  - unfold resolvedParams. now rewrite Hint.
Qed.

(** X17.  Switching the locale never drops a parameter: the parameters of
    the candidate are exactly those of the current route together with the
    chosen overrides. *)
Theorem switchBaseRoute_keeps_params (opts : I18nRoutingOptions)
    (route : RouteLocation) (locale : Locale) (name : string) :
  exists params : RouteParams,
    l_params (switchBaseRoute opts name route locale) = Some params
    /\ dom params = dom (resolvedParams opts route locale) ∪ dom (r_params route)
    /\ forall k, is_Some (r_params route !! k) -> is_Some (params !! k).
Proof.
  exists (resolvedParams opts route locale ∪ r_params route).
  split; [reflexivity|]. split; [apply dom_union_L|].
  intros k Hk. apply elem_of_dom. rewrite dom_union_L.
  apply elem_of_union_r. now apply elem_of_dom.
Qed.

End SwitcherFacts.

(** X13 on the post: the candidate keeps the English path of the current
    route and is resolved under the name ["post___fr"]. *)
Lemma switchLocalePath_resolves_by_name_post :
  exists localized : RouteLocationObject,
    @localizeRoute (Samples.switchEnv "i18nParams")
      (Samples.switchProxy (Samples.post "i18nParams"))
      (RouteObject
         (@switchBaseRoute (Samples.switchEnv "i18nParams")
            (Samples.options PREFIX false "i18nParams" None) "post"
            (Samples.post "i18nParams") "fr"))
      (Some "fr")
    = Normal localized
    /\ l_name localized = Value "post___fr"
    /\ l_path localized = Value "/en/post/hello"
    /\ @switchLocalePath (Samples.switchEnv "i18nParams")
         (Samples.switchProxy (Samples.post "i18nParams")) "fr"
       = Normal "/fr/post/bonjour".
Proof.
  destruct (@switchLocalePath_resolves_by_name (Samples.switchEnv "i18nParams")
              (Samples.switchProxy (Samples.post "i18nParams")) "fr"
              (Samples.post "i18nParams") "post" eq_refl eq_refl)
    as [Hloc [_ [_ Hswitch]]]; [discriminate|].
  eexists. split; [exact Hloc|]. split; [reflexivity|]. split; [reflexivity|].
  rewrite Hswitch. reflexivity.
Defined.


(** X15 on the post, whose metadata holds a French slug under the key
    ["i18nParams"]. *)
Lemma langSwitchParams_source_post :
  "i18nParams" <> @DEFAULT_DYNAMIC_PARAMS_KEY (Samples.switchEnv "i18nParams")
  /\ @langSwitchParams (Samples.switchEnv "i18nParams")
       (Samples.options PREFIX false "i18nParams" None)
       (Samples.post "i18nParams") "fr" !! "slug"
     = Some (PString "bonjour").
Proof.
  split; [|vm_compute; reflexivity].
  apply (@langSwitchParams_source (Samples.switchEnv "i18nParams")
           (Samples.options PREFIX false "i18nParams" None)
           (Samples.post "i18nParams") "fr").
  intros Hempty. apply (f_equal (fun m : RouteParams => m !! "slug")) in Hempty.
  vm_compute in Hempty. discriminate Hempty.
Defined.

(** X16 on the post: with an interceptor that supplies [{}] for French,
    the French slug of the metadata is not applied. *)
Lemma interceptor_entry_precedence_post :
  l_params
    (@switchBaseRoute (Samples.switchEnv "i18nParams")
       (Samples.options PREFIX false "i18nParams" Samples.emptyFrenchInterceptor)
       "post" (Samples.post "i18nParams") "fr")
  = Some {[ "slug" := PString "hello"; "id" := PString "7" ]}.
Proof.
  apply (proj1 (@interceptor_entry_precedence (Samples.switchEnv "i18nParams")
                  (Samples.options PREFIX false "i18nParams"
                     Samples.emptyFrenchInterceptor)
                  (Samples.post "i18nParams") "fr" "post")).
  vm_compute. reflexivity.
Defined.

(** ** The locale segment of a localized path *)

Section LocalePrefix.
Context `{Externals}.
Import JsString Ufo.

Lemma dropLast_append (x p : string) :
  p <> "" -> dropLast (x +:+ p) = x +:+ dropLast p.
Proof.
  intros Hp. induction x as [|a x IH]; [reflexivity|].
  rewrite !append_cons. cbn [dropLast].
  destruct (x +:+ p) as [|b s] eqn:Hxp.
  - destruct x; [rewrite append_nil_l in Hxp; contradiction | discriminate Hxp].
  - now rewrite IH.
Qed.

(** X18.  When the prefix policy asks for a prefix, the localized path of
    an unmatched path still begins with ["/" +:+ locale] after the
    trailing-slash normalisation, with and without [trailingSlash], for
    every non-empty path such that the prefixed path has no ["?"] and no
    ["#"]. *)
Theorem localizedPath_starts_with_locale (opts : I18nRoutingOptions)
    (_locale : Locale) (path : string) :
  path <> "" ->
  o_prefixable opts
    {| currentLocale := _locale; defaultLocale := o_defaultLocale opts;
       strategy := o_strategy opts |} = true ->
  includes "?" ("/" +:+ _locale +:+ path) = false ->
  includes "#" ("/" +:+ _locale +:+ path) = false ->
  String.prefix ("/" +:+ _locale) (localizedPath opts _locale path) = true.
Proof.
  intros Hpath Hprefixable Hq Hf. unfold localizedPath. rewrite Hprefixable.
  assert (Hne : "/" +:+ _locale +:+ path <> "") by discriminate.
  assert (Hassoc : "/" +:+ _locale +:+ path = ("/" +:+ _locale) +:+ path)
    by (now rewrite append_assoc).
  destruct (o_trailingSlash opts).
  - rewrite (withTrailingSlash_plain _ Hne Hq Hf).
    destruct (endsWith "/" _).
    + rewrite Hassoc. apply prefix_self_append.
    + rewrite Hassoc, append_assoc. apply prefix_self_append.
  - rewrite (withoutTrailingSlash_plain _ Hne Hq Hf).
    destruct (endsWith "/" _).
    + rewrite Hassoc, (dropLast_append _ _ Hpath).
      rewrite or_else_nonempty; [apply prefix_self_append | discriminate].
    + rewrite Hassoc. apply prefix_self_append.
Qed.

End LocalePrefix.

(** X18 on ["/about/"] for the locale ["fr"] under the default policy of the
    strategy [prefix]: the localized path is ["/fr/about"]. *)
Lemma localizedPath_starts_with_locale_about :
  localizedPath (Samples.options PREFIX false "" None) "fr" "/about/"
  = "/fr/about"
  /\ String.prefix "/fr"
       (localizedPath (Samples.options PREFIX false "" None) "fr" "/about/")
     = true.
Proof.
  split; [reflexivity|].
  apply (localizedPath_starts_with_locale
           (Samples.options PREFIX false "" None) "fr" "/about/");
    [discriminate | reflexivity | reflexivity | reflexivity].
Defined.
